(** * Blackjack: the per-session game actor, its scoring rules and registry

    A shallow embedding of [main.go] (the actor variant: [gameLoop],
    [createGame], [gameHandler], [cleanupOldGames]) and the properties its
    specification states about it.

    Conventions of the embedding.
    - Go's [int] is modelled by [Z].  Every quantity computed here is bounded
      by eleven times the number of cards in a hand, far inside 64 bits, so no
      wrap-around is written out.
    - A run-time panic (index out of range) is the [None] of the option monad:
      a function that can panic returns [option].
    - Go's [%] truncates towards zero: it is [Z.rem]. *)

From stdpp Require Import base option numbers list strings gmap.
From Stdlib Require Import Ascii DecimalString.
From Stdlib Require DecimalPos DecimalZ.

Local Open Scope string_scope.
Local Open Scope list_scope.
Local Open Scope Z_scope.

(** ** Cards and the three tables *)

(** [type card int] *)
Definition card : Type := Z.

Definition values : list string :=
  ["2"; "3"; "4"; "5"; "6"; "7"; "8"; "9"; "10"; "Jack"; "Queen"; "King"; "Ace"].
Definition scores : list Z := [2; 3; 4; 5; 6; 7; 8; 9; 10; 10; 10; 10; 11].
Definition suits : list string := ["spades"; "hearts"; "diamonds"; "clubs"].

(** [s[i]] on a Go slice: panics when [i] is negative or beyond the end. *)
Definition index {A} (s : list A) (i : Z) : option A :=
  if bool_decide (0 ≤ i) then s !! Z.to_nat i else None.

(** [len(s)] as an [int]. *)
Definition len {A} (s : list A) : Z := Z.of_nat (length s).

(** The rank and suit positions that [card.String] and [card.score] index
    the tables with: [int(c) % len(values)] and [int(c) % len(suits)]. *)
Definition rank_index (c : card) : Z := Z.rem c (len values).
Definition suit_index (c : card) : Z := Z.rem c (len suits).

(** [func (c card) String() string] *)
Definition card_String (c : card) : option string :=
  v ← index values (rank_index c);
  s ← index suits (suit_index c);
  Some (v +:+ " of " +:+ s).

(** [func (c card) score() int] *)
Definition card_score (c : card) : option Z :=
  index scores (Z.rem c (len scores)).

(** ** Hand evaluator *)

(** The first loop of [score]: [total] and [aces] after ranging over the
    hand.  [aces] only counts upwards from zero: it is a [nat]. *)
Fixpoint score_range (hand : list card) (total : Z) (aces : nat)
  : option (Z * nat) :=
  match hand with
  | [] => Some (total, aces)
  | c :: hand' =>
      s ← card_score c;
      score_range hand' (total + s) (if bool_decide (s = 11) then S aces else aces)
  end.

(** The second loop of [score]: [for total > 21 && aces > 0]. *)
Fixpoint demote (aces : nat) (total : Z) : Z :=
  match aces with
  | O => total
  | S aces' => if bool_decide (total > 21) then demote aces' (total - 10) else total
  end.

(** [func score(hand []card) int] *)
Definition score (hand : list card) : option Z :=
  '(total, aces) ← score_range hand 0 0%nat;
  Some (demote aces total).

(** [func isBlackjack(hand []card) bool]; [&&] evaluates [score] only for a
    two-card hand. *)
Definition isBlackjack (hand : list card) : option bool :=
  if bool_decide (len hand = 2) then
    s ← score hand; Some (bool_decide (s = 21))
  else Some false.

(** [func hasAce(hand []card) bool]; returns at the first Ace. *)
Fixpoint hasAce (hand : list card) : option bool :=
  match hand with
  | [] => Some false
  | c :: hand' =>
      s ← card_score c;
      if bool_decide (s = 11) then Some true else hasAce hand'
  end.

(** ** Game state and the actor's transition *)

Record GameState : Type := mkGameState {
  PlayerHand : list card;
  DealerHand : list card;
  Deck : list card;
  Bust : bool;
  Stand : bool;
  Message : string
}.

(** The condition of the dealer's [for] loop,
    [dealerScore < 17 || (dealerScore == 17 && hasAce(state.DealerHand))],
    with Go's short-circuit evaluation. *)
Definition dealer_draws (dealerScore : Z) (hand : list card) : option bool :=
  if bool_decide (dealerScore < 17) then Some true
  else if bool_decide (dealerScore = 17) then hasAce hand
  else Some false.

(** The dealer's loop of the stand case.  Each iteration that passes the
    condition consumes [state.Deck[0]]: the recursion is on the deck, and an
    iteration that finds it empty panics.  The result is the dealer's hand,
    the deck that is left and the last [dealerScore]. *)
Fixpoint dealer_loop (deck : list card) (hand : list card) (dealerScore : Z)
  : option (list card * list card * Z) :=
  match deck with
  | [] =>
      more ← dealer_draws dealerScore hand;
      if more : bool then None else Some (hand, [], dealerScore)
  | c :: deck' =>
      more ← dealer_draws dealerScore hand;
      if more : bool then
        s ← score (hand ++ [c]);
        dealer_loop deck' (hand ++ [c]) s
      else Some (hand, deck, dealerScore)
  end.

(** The [switch] that determines the winner. *)
Definition outcome (playerScore dealerScore : Z) : string :=
  if bool_decide (dealerScore > 21) then "Dealer busts! You win!"
  else if bool_decide (playerScore > dealerScore) then "You win!"
  else if bool_decide (playerScore = dealerScore) then "Push!"
  else if bool_decide (playerScore = 21) then "Blackjack! You win!"
  else "You lose!".

(** [case "hit":] *)
Definition hit (state : GameState) : option GameState :=
  if negb (Stand state) && negb (Bust state) then
    c ← index (Deck state) 0;
    let hand := PlayerHand state ++ [c] in
    let deck := drop 1 (Deck state) in
    s ← score hand;
    let '(bust, msg) :=
      if bool_decide (s > 21) then (true, "Bust!")
      else (Bust state, Message state) in
    bj ← isBlackjack hand;
    let '(stand, msg) :=
      if bj : bool then (true, "Blackjack! You win!")
      else (Stand state, msg) in
    Some (mkGameState hand (DealerHand state) deck bust stand msg)
  else Some state.

(** [case "stand":] *)
Definition stand (state : GameState) : option GameState :=
  if negb (Stand state) && negb (Bust state) then
    dealerScore ← score (DealerHand state);
    '(hand, deck, dealerScore) ← dealer_loop (Deck state) (DealerHand state) dealerScore;
    playerScore ← score (PlayerHand state);
    Some (mkGameState (PlayerHand state) hand deck (Bust state) true
            (outcome playerScore dealerScore))
  else Some state.

(** The body of [for cmd := range session.commands]: the [switch] on
    [cmd.Action], which has no default case. *)
Definition transition (action : string) (state : GameState) : option GameState :=
  if bool_decide (action = "hit") then hit state
  else if bool_decide (action = "stand") then stand state
  else Some state.

(** One command: the new state of the actor and the snapshot sent on
    [cmd.Response], which is the state after the switch. *)
Definition gameLoop_step (action : string) (state : GameState)
  : option (GameState * GameState) :=
  state' ← transition action state;
  Some (state', state').

(** The actor over the commands it receives in order: its last state and the
    replies it sent. *)
Fixpoint gameLoop (commands : list string) (state : GameState)
  : option (GameState * list GameState) :=
  match commands with
  | [] => Some (state, [])
  | action :: commands' =>
      '(state', reply) ← gameLoop_step action state;
      '(final, replies) ← gameLoop commands' state';
      Some (final, reply :: replies)
  end.

(** ** Creating a game *)

(** [deck[i], deck[j] = deck[j], deck[i]]: both elements are read, then
    [deck[i]] and [deck[j]] are assigned in that order.  An index beyond the
    slice panics. *)
Definition swap (i j : nat) (deck : list card) : option (list card) :=
  x ← deck !! i;
  y ← deck !! j;
  Some (<[j:=x]> (<[i:=y]> deck)).

(** [rand.Shuffle(n, swap)] of math/rand is a Fisher-Yates shuffle: for [i]
    from [n-1] down to [1] it calls [swap(i, j)] with a pseudo-random [j] in
    [[0, i]].  The generator is outside the program: [rnd i] stands for the
    [j] it yields at index [i]. *)
Fixpoint Shuffle_from (i : nat) (rnd : nat → nat) (deck : list card)
  : option (list card) :=
  match i with
  | O => Some deck
  | S i' => deck' ← swap i (rnd i) deck; Shuffle_from i' rnd deck'
  end.

Definition Shuffle (n : nat) (rnd : nat → nat) (deck : list card)
  : option (list card) :=
  Shuffle_from (n - 1) rnd deck.

(** [deck := make([]card, 52); for i := range deck { deck[i] = card(i) }] *)
Definition new_deck : list card := Z.of_nat <$> seq 0 52.

(** The [initialState] that [createGame] hands to [gameLoop]. *)
Definition initialState (rnd : nat → nat) : option GameState :=
  deck ← Shuffle (length new_deck) rnd new_deck;
  c0 ← index deck 0;
  c1 ← index deck 1;
  Some (mkGameState [c0] [c1] (drop 2 deck) false false "").

(** ** The registry and the handlers *)

(** [time.Time] and [time.Duration] in nanoseconds. *)
Definition Minute : Z := 60 * 1000000000.
Definition Since (now t : Z) : Z := now - t.

(** A session: the channel its actor ranges over, named by a number, and its
    creation time. *)
Record GameSession : Type := mkGameSession {
  commands : nat;
  created : Z
}.

(** The process: the global [games] map, the state held by the goroutine
    behind each open channel, and the number of channels made so far. *)
Record Server : Type := mkServer {
  games : gmap string GameSession;
  actors : gmap nat GameState;
  chans : nat
}.

(** [fmt.Sprintf("game-%d", n)] *)
Definition Sprintf_game (n : Z) : string :=
  "game-" +:+ NilZero.string_of_int (Z.to_int n).

Definition is_digit (a : ascii) : bool :=
  bool_decide (48 ≤ nat_of_ascii a ≤ 57)%nat.

Fixpoint digits (s : string) : bool :=
  match s with
  | EmptyString => true
  | String a s' => is_digit a && digits s'
  end.

Fixpoint strip_prefix (p s : string) : option string :=
  match p, s with
  | EmptyString, _ => Some s
  | String a p', String b s' => if bool_decide (a = b) then strip_prefix p' s' else None
  | String _ _, EmptyString => None
  end.

(** [gameIDRe.MatchString] for [^game-\d+$]. *)
Definition gameIDRe_MatchString (s : string) : bool :=
  match strip_prefix "game-" s with
  | Some rest => negb (bool_decide (rest = "")) && digits rest
  | None => false
  end.

(** [func getSession(gameID string)]: the session and whether it exists. *)
Definition getSession (srv : Server) (gameID : string) : option GameSession :=
  games srv !! gameID.

(** [func gameLoop(initial GameState)], the part before [go]: a new channel and a
    goroutine holding [initial]; [now] is what [time.Now()] reads. *)
Definition spawn (now : Z) (initial : GameState) (srv : Server)
  : GameSession * Server :=
  let session := mkGameSession (chans srv) now in
  (session,
   mkServer (games srv) (<[chans srv := initial]> (actors srv)) (S (chans srv))).

(** [func createGame()]; [unixNano] and [now] are the
    two readings of the clock, [rnd] the choices of the shuffle. *)
Definition createGame (unixNano now : Z) (rnd : nat → nat) (srv : Server)
  : option (string * GameSession * Server) :=
  let gameID := Sprintf_game unixNano in
  initial ← initialState rnd;
  let '(session, srv') := spawn now initial srv in
  Some (gameID, session,
        mkServer (<[gameID := session]> (games srv')) (actors srv') (chans srv')).

(** What a handler writes to the client. *)
Inductive Response : Type :=
  | Page (state : GameState) (gameID : string)
  | SeeOther (url : string)
  | Error (msg : string) (code : nat).

(** [session.commands <- GameCommand{...}] followed by the receive on the
    reply channel.  The actor answers each command as soon as it has run it,
    so the two-second branch of the [select] is never taken here; the reply
    is a pointer to the actor's state, read by the handler before the next
    command: it is the state after the command.  A send on a channel that
    has been closed panics. *)
Definition submit (session : GameSession) (action : string) (srv : Server)
  : option (GameState * Server) :=
  state ← actors srv !! commands session;
  '(state', reply) ← gameLoop_step action state;
  Some (reply,
        mkServer (games srv) (<[commands session := state']> (actors srv)) (chans srv)).

(** [func gameHandler(w, r, action string)] for the path value [gameID]. *)
Definition gameHandler (gameID action : string) (srv : Server)
  : option (Response * Server) :=
  if negb (gameIDRe_MatchString gameID) then
    Some (Error "Invalid game ID" 400, srv)
  else
    match getSession srv gameID with
    | None => Some (SeeOther "/", srv)
    | Some session =>
        '(state, srv') ← submit session action srv;
        Some (Page state gameID, srv')
    end.

Definition hitHandler (gameID : string) := gameHandler gameID "hit".
Definition standHandler (gameID : string) := gameHandler gameID "stand".

(** [func newHandler(w, r)] *)
Definition newHandler (unixNano now : Z) (rnd : nat → nat) (srv : Server)
  : option (Response * Server) :=
  '(gameID, session, srv') ← createGame unixNano now rnd srv;
  '(_, srv'') ← submit session "" srv';
  Some (SeeOther ("/game/" +:+ gameID +:+ "/hit"), srv'').

(** [close(ch)].  The open channels are those an actor ranges over; closing
    a channel that is closed already panics. *)
Definition close (ch : nat) (srv : Server) : option Server :=
  match actors srv !! ch with
  | Some _ => Some (mkServer (games srv) (delete ch (actors srv)) (chans srv))
  | None => None
  end.

(** The end of the goroutine of [gameLoop]: once its channel is closed the
    [range] over it ends, the function returns and its deferred
    [close(session.commands)] runs. *)
Definition actor_return (session : GameSession) (srv : Server) : option Server :=
  close (commands session) srv.

(** The body of the loop of [cleanupOldGames] for one entry of the map, in
    a process that may have panicked already.  For a session older than
    thirty minutes it closes the channel, which wakes the actor waiting on
    it, and deletes the entry.  The actor returns during the pass or right
    after it; a panic in it ends the process whenever that is, so the model
    lets the actor return at once. *)
Definition cleanup_entry (now : Z) (id : string) (session : GameSession)
    (process : option Server) : option Server :=
  srv ← process;
  if bool_decide (Since now (created session) > 30 * Minute) then
    srv1 ← close (commands session) srv;
    srv2 ← actor_return session srv1;
    Some (mkServer (delete id (games srv2)) (actors srv2) (chans srv2))
  else Some srv.

(** [func cleanupOldGames()]: ranges over [games]; [None] is the process
    ended by a panic. *)
Definition cleanupOldGames (now : Z) (srv : Server) : option Server :=
  map_fold (cleanup_entry now) (Some srv) (games srv).

(** ** The routes *)

(** A request as the mux of [main] dispatches it: ["/new"],
    ["/game/{game}/hit"], ["/game/{game}/stand"], and ["/"] for every other
    path.  A request for a new game carries what the clock and the
    generator yield while it is served. *)
Inductive Request : Type :=
  | GetRoot
  | GetNew (unixNano now : Z) (rnd : nat → nat)
  | GetHit (game : string)
  | GetStand (game : string).

(** The handlers [main] registers. *)
Definition serve (req : Request) (srv : Server) : option (Response * Server) :=
  match req with
  | GetRoot => Some (SeeOther "/new", srv)
  | GetNew unixNano now rnd => newHandler unixNano now rnd srv
  | GetHit game => hitHandler game srv
  | GetStand game => standHandler game srv
  end.

(** Requests served one after the other. *)
Fixpoint serve_all (reqs : list Request) (srv : Server)
  : option (list Response * Server) :=
  match reqs with
  | [] => Some ([], srv)
  | req :: reqs' =>
      '(r, srv') ← serve req srv;
      '(rs, srv'') ← serve_all reqs' srv';
      Some (r :: rs, srv'')
  end.

(** ** The variant with a mutex per game *)

(** [s[lo:hi]] on a slice whose capacity is its length: panics unless
    [0 <= lo <= hi <= len(s)]. *)
Definition slice {A} (s : list A) (lo hi : Z) : option (list A) :=
  if bool_decide (0 ≤ lo ∧ lo ≤ hi ∧ hi ≤ len s)
  then Some (take (Z.to_nat (hi - lo)) (drop (Z.to_nat lo) s))
  else None.

(** The second program of [main.go] with a registry of games: each game is
    a shuffled deck and the number of cards the player holds, guarded by a
    mutex.  The dealer's card is [deck[0]], the player's hand is
    [deck[1 : 1+count]], and the dealer draws behind it. *)
Module Locked.

(** [type game struct]; [mu] says whether the mutex is held. *)
Record game : Type := mkGame {
  mu : bool;
  count : Z;
  deck : list card;
  playerBust : bool
}.

(** What a handler writes: the game page, the result page, an error with
    its status, a redirect, the welcome page, or nothing at all when the
    handler blocks for good. *)
Inductive Reply : Type :=
  | GamePage (dealer : card) (you : list card) (bust : bool)
  | ResultPage (playerHand : list card) (playerScore : Z)
      (dealerHand : list card) (dealerScore : Z) (outcome : string)
  | HttpError (msg : string) (code : nat)
  | Found (url : string)
  | Welcome
  | Blocked.

(** [func generateGameID() string] *)
Definition generateGameID (unixNano : Z) : string := Sprintf_game unixNano.

(** [func newGame() *game] *)
Definition newGame (rnd : nat → nat) : option game :=
  deck ← Shuffle (length new_deck) rnd new_deck;
  Some (mkGame false 0 deck false).

(** [func validateGameID(gameID string) bool] *)
Definition validateGameID (gameID : string) : bool := gameIDRe_MatchString gameID.

(** [func newGameHandler(w, r)] *)
Definition newGameHandler (unixNano : Z) (rnd : nat → nat)
    (games : gmap string game) : option (Reply * gmap string game) :=
  let gameID := generateGameID unixNano in
  newGame ← newGame rnd;
  Some (Found ("/" +:+ gameID +:+ "/hit"), <[gameID := newGame]> games).

(** [func determineOutcome(player, dealer int) string] *)
Definition determineOutcome (player dealer : Z) : string :=
  if bool_decide (player > 21) then "You bust!"
  else if bool_decide (dealer > 21) then "Dealer busts! You win!"
  else if bool_decide (player = dealer) then "Push!"
  else if bool_decide (player = 21) then "Blackjack! You win!"
  else if bool_decide (player > dealer) then "You win!"
  else "You lose!".

(** The dealer's loop of [standHandler],
    [for i := 1 + game.count; i < len(game.deck); i++], over the cards
    [rest] from [deck[1+count]] on: each card goes to the dealer's hand
    before the score is tested; a 17 with an Ace in the hand continues. *)
Fixpoint dealer_play (rest : list card) (dealerHand : list card) (dealerScore : Z)
  : option (list card * Z) :=
  match rest with
  | [] => Some (dealerHand, dealerScore)
  | c :: rest' =>
      let hand := dealerHand ++ [c] in
      s ← score hand;
      soft17 ← (if bool_decide (s = 17) then hasAce hand else Some false);
      if soft17 : bool then dealer_play rest' hand s
      else if bool_decide (s >= 17) then Some (hand, s)
      else dealer_play rest' hand s
  end.

(** [func standHandler(w, r)] for the path value [gameKey].  The deferred
    [delete(games, gameKey)] runs on every return after the lock is taken. *)
Definition standHandler (gameKey : string) (games : gmap string game)
  : option (Reply * gmap string game) :=
  if negb (validateGameID gameKey) then Some (HttpError "Invalid game ID" 400, games)
  else
    match games !! gameKey with
    | None => Some (HttpError "Game not found" 404, games)
    | Some g =>
        if mu g then Some (Blocked, games)
        else
          let games' := delete gameKey games in
          if bool_decide (count g < 2) then
            Some (HttpError "Not enough cards to stand" 400, games')
          else
            playerHand ← slice (deck g) 1 (1 + count g);
            playerScore ← score playerHand;
            dealer ← index (deck g) 0;
            '(dealerHand, dealerScore) ←
              dealer_play (drop (Z.to_nat (1 + count g)) (deck g)) [dealer] 0;
            Some (ResultPage playerHand playerScore dealerHand dealerScore
                    (determineOutcome playerScore dealerScore), games')
    end.

(** [func hitHandler(w, r)] for the path value [gameKey].  On a blackjack it
    calls [standHandler] while it holds the mutex of the game, and
    [standHandler] stops at its own [game.mu.Lock()]: nothing is written
    and the mutex stays held. *)
Definition hitHandler (gameKey : string) (games : gmap string game)
  : option (Reply * gmap string game) :=
  if negb (validateGameID gameKey) then Some (HttpError "Invalid game ID" 400, games)
  else
    match games !! gameKey with
    | None => Some (HttpError "Game not found" 404, games)
    | Some g =>
        if mu g then Some (Blocked, games)
        else if playerBust g || bool_decide (count g >= len (deck g) - 1) then
          Some (HttpError "Invalid action" 400, games)
        else
          let count' := count g + 1 in
          playerHand ← slice (deck g) 1 (1 + count');
          playerScore ← score playerHand;
          let bust := if bool_decide (playerScore > 21) then true else playerBust g in
          bj ← isBlackjack playerHand;
          if bj : bool then
            Some (Blocked, <[gameKey := mkGame true count' (deck g) bust]> games)
          else
            dealer ← index (deck g) 0;
            Some (GamePage dealer playerHand (bool_decide (playerScore > 21)),
                  <[gameKey := mkGame false count' (deck g) bust]> games)
    end.

(** [func welcomeHandler(w, r)] *)
Definition welcomeHandler (games : gmap string game)
  : option (Reply * gmap string game) :=
  Some (Welcome, games).

End Locked.

(** ** The variant with a counter for identifiers *)

(** The first program of [main.go] with a registry of games: identifiers
    come from a counter, a game is a shuffled deck and the number of cards
    the player holds, and nothing stops the player from hitting on. *)
Module Counted.

(** [type game struct] *)
Record game : Type := mkGame {
  count : Z;
  deck : list card
}.

(** The globals [games] and [gameCounter]. *)
Record Registry : Type := mkRegistry {
  games : gmap string game;
  gameCounter : Z
}.

Inductive Reply : Type :=
  | GamePage (dealer : card) (you : list card)
  | ResultPage (playerHand : list card) (playerScore : Z)
      (dealerHand : list card) (dealerScore : Z) (outcome : string)
  | NotFoundPage (gameKey : string)
  | HttpError (msg : string) (code : nat)
  | Found (url : string)
  | Welcome.

(** [func generateGameID() string] *)
Definition generateGameID (reg : Registry) : string * Registry :=
  let counter := gameCounter reg + 1 in
  (Sprintf_game counter, mkRegistry (games reg) counter).

(** [func newGame() *game] *)
Definition newGame (rnd : nat → nat) : option game :=
  deck ← Shuffle (length new_deck) rnd new_deck;
  Some (mkGame 0 deck).

(** [func newGameHandler(w, r)] *)
Definition newGameHandler (rnd : nat → nat) (reg : Registry)
  : option (Reply * Registry) :=
  let '(gameID, reg') := generateGameID reg in
  newGame ← newGame rnd;
  Some (Found ("/" +:+ gameID +:+ "/hit"),
        mkRegistry (<[gameID := newGame]> (games reg')) (gameCounter reg')).

(** [func hitHandler(w, r)] for the path value [gameKey] *)
Definition hitHandler (gameKey : string) (reg : Registry)
  : option (Reply * Registry) :=
  match games reg !! gameKey with
  | None => Some (NotFoundPage gameKey, reg)
  | Some g =>
      let count' := count g + 1 in
      let reg' := mkRegistry (<[gameKey := mkGame count' (deck g)]> (games reg))
                    (gameCounter reg) in
      if bool_decide (count' >= len (deck g)) then
        Some (HttpError "Deck exhausted" 500, reg')
      else
        dealer ← index (deck g) 0;
        you ← slice (deck g) 1 (1 + count');
        Some (GamePage dealer you, reg')
  end.

(** The dealer's loop of [standHandler]: each card from [deck[1+count]] on
    goes to the dealer's hand until the score is 17 or more. *)
Fixpoint dealer_play (rest : list card) (dealerHand : list card) (dealerScore : Z)
  : option (list card * Z) :=
  match rest with
  | [] => Some (dealerHand, dealerScore)
  | c :: rest' =>
      let hand := dealerHand ++ [c] in
      s ← score hand;
      if bool_decide (s >= 17) then Some (hand, s)
      else dealer_play rest' hand s
  end.

(** The [switch] of [standHandler] over the default "You lose!". *)
Definition outcome (playerScore dealerScore : Z) : string :=
  if bool_decide (playerScore > 21) then "You bust!"
  else if bool_decide (dealerScore > 21) || bool_decide (playerScore > dealerScore)
  then "You win!"
  else if bool_decide (playerScore = dealerScore) then "Push!"
  else "You lose!".

(** [func standHandler(w, r)] for the path value [gameKey] *)
Definition standHandler (gameKey : string) (reg : Registry)
  : option (Reply * Registry) :=
  match games reg !! gameKey with
  | None => Some (NotFoundPage gameKey, reg)
  | Some g =>
      playerHand ← slice (deck g) 1 (1 + count g);
      playerScore ← score playerHand;
      dealer ← index (deck g) 0;
      '(dealerHand, dealerScore) ←
        dealer_play (drop (Z.to_nat (1 + count g)) (deck g)) [dealer] 0;
      Some (ResultPage playerHand playerScore dealerHand dealerScore
              (outcome playerScore dealerScore),
            mkRegistry (delete gameKey (games reg)) (gameCounter reg))
  end.

End Counted.

(** * Notions the properties are stated with *)

(** The cards of the data model: the values [0] to [51]. *)
Definition valid_card (c : card) : Prop := 0 ≤ c < 52.

(** All of them, in order. *)
Definition cards : list card := new_deck.

(** Following the specification's table of card values: 2 to 10 count at
    face value, Jack, Queen and King 10, the Ace 11. *)
Definition fixed_value (rank : string) : Z :=
  if bool_decide (rank = "Ace") then 11
  else if bool_decide (rank ∈ ["Jack"; "Queen"; "King"]) then 10
  else if bool_decide (rank = "10") then 10
  else match rank with
       | String d EmptyString => Z.of_nat (nat_of_ascii d) - 48
       | _ => 0
       end.

(** The cards the first loop of [score] counts in [aces]. *)
Definition is_ace (c : card) : bool := bool_decide (card_score c = Some 11).

(** The value of a card in the table of scores, [0] where the code panics. *)
Definition card_value (c : card) : Z := default 0 (card_score c).

(** The sum of the fixed values of a hand, every Ace at 11. *)
Fixpoint hand_total (hand : list card) : Z :=
  match hand with
  | [] => 0
  | c :: hand' => card_value c + hand_total hand'
  end.

(** The number of Aces of a hand. *)
Definition count_aces (hand : list card) : nat := length (filter is_ace hand).

(** The total of a hand under an assignment of Ace values: [low] says, card
    by card, whether an Ace counts as 1; every other card, and every Ace
    without a flag, keeps its fixed value.  Each card is counted once. *)
Fixpoint assigned_total (hand : list card) (low : list bool) : Z :=
  match hand with
  | [] => 0
  | c :: hand' =>
      (if is_ace c && hd false low then 1 else card_value c)
      + assigned_total hand' (tl low)
  end.

(** The card with a given rank and suit position. *)
Definition card_of (r s : Z) : card := (40 * r + 13 * s) `mod` 52.

(** The three outcomes of a round. *)
Inductive Outcome : Type := PlayerWins | Push | PlayerLoses.

(** The outcome rule in the order the specification gives it: the dealer
    above 21, then equal scores, then the player above the dealer. *)
Definition spec_outcome (playerScore dealerScore : Z) : Outcome :=
  if bool_decide (dealerScore > 21) then PlayerWins
  else if bool_decide (playerScore = dealerScore) then Push
  else if bool_decide (playerScore > dealerScore) then PlayerWins
  else PlayerLoses.

(** What a message of the stand case tells the player. *)
Definition outcome_of_message (msg : string) : option Outcome :=
  if bool_decide (msg ∈ ["Dealer busts! You win!"; "You win!"; "Blackjack! You win!"])
  then Some PlayerWins
  else if bool_decide (msg = "Push!") then Some Push
  else if bool_decide (msg = "You lose!") then Some PlayerLoses
  else None.

(** The three parts of a state hold the 52 cards of a new deck, each once. *)
Definition partition (s : GameState) : Prop :=
  PlayerHand s ++ DealerHand s ++ Deck s ≡ₚ new_deck.

(** While the game runs the dealer holds the one card it was dealt and the
    player is not above 21. *)
Definition running_ok (s : GameState) : Prop :=
  Stand s = false → Bust s = false →
  length (DealerHand s) = 1%nat
  ∧ ∃ p, score (PlayerHand s) = Some p ∧ p ≤ 21.

(** What holds of every state a session passes through. *)
Definition session_inv (s : GameState) : Prop := partition s ∧ running_ok s.

(** Following the specification's [hasSoftValue]: an Ace of the hand still
    counts 11 in its score, that is, the score is above the total with every
    Ace at 1. *)
Definition hasSoftValue (hand : list card) : option bool :=
  s ← score hand;
  Some (bool_decide (hand_total hand - 10 * Z.of_nat (count_aces hand) < s)).

(** Choices of the shuffle given by a table, [rnd i = i] beyond it (the
    element stays where it is). *)
Definition choices (table : list nat) : nat → nat :=
  λ i, default i (table !! i).

(** Choices under which the shuffled deck starts 10, Ace, 8, 6, 10, 7 (the
    cards 8, 12, 6, 4, 21, 5). *)
Definition hard17_choices : nat → nat :=
  choices [0; 1; 0; 3; 3; 5; 0; 1; 2; 3; 7; 9; 10; 11; 13; 14; 15; 16; 17;
           18; 19; 20]%nat.

(** The test of [cleanupOldGames] on one session. *)
Definition expired (now : Z) (session : GameSession) : bool :=
  bool_decide (Since now (created session) > 30 * Minute).

(** How the flags, the message and the player's score go together. *)
Definition flags_ok (s : GameState) : Prop :=
  ∃ p, score (PlayerHand s) = Some p
       ∧ Bust s = bool_decide (p > 21)
       ∧ (Stand s = true → Bust s = false)
       ∧ (Message s = "" ↔ Stand s = false ∧ Bust s = false)
       ∧ (Bust s = true → Message s = "Bust!")
       ∧ (Stand s = true → is_Some (outcome_of_message (Message s))).

(** The choices of the shuffle of a request are in range. *)
Definition request_ok (req : Request) : Prop :=
  match req with
  | GetNew _ _ rnd => ∀ n, (rnd n ≤ n)%nat
  | _ => True
  end.

(** What holds of the process between requests: every registered session
    has an actor behind its channel, no two registered sessions share a
    channel, the channels in use are below the next one to be made, and
    every actor holds a state that satisfies the invariant of a session. *)
Definition server_ok (srv : Server) : Prop :=
  (∀ id session, games srv !! id = Some session →
     is_Some (actors srv !! commands session))
  ∧ (∀ id1 id2 s1 s2, games srv !! id1 = Some s1 → games srv !! id2 = Some s2 →
       commands s1 = commands s2 → id1 = id2)
  ∧ (∀ ch, is_Some (actors srv !! ch) → (ch < chans srv)%nat)
  ∧ (∀ ch state, actors srv !! ch = Some state → session_inv state).

(** A game of the variant with a mutex that is well formed: its deck is a
    shuffled deck of the 52 cards and the player holds at most 51 of them. *)
Definition locked_game_ok (g : Locked.game) : Prop :=
  Locked.deck g ≡ₚ new_deck ∧ 0 ≤ Locked.count g ≤ 51.

(** In the variant with a counter, every registered identifier was printed
    from a value the counter has passed. *)
Definition counted_ids_ok (reg : Counted.Registry) : Prop :=
  ∀ id g, Counted.games reg !! id = Some g →
          ∃ k, id = Sprintf_game k ∧ k ≤ Counted.gameCounter reg.

(** * Properties *)

(** ** Cards *)

Lemma valid_card_cards c : valid_card c ↔ c ∈ cards.
Proof.
  unfold valid_card, cards, new_deck. rewrite list_elem_of_fmap. split.
  - intros Hc. exists (Z.to_nat c). split; [lia|].
    apply elem_of_seq. lia.
  - intros (n & -> & Hn). apply elem_of_seq in Hn. lia.
Qed.

(** A property that holds of each of the 52 values holds of every card. *)
Lemma forall_cards (P : card → Prop) :
  Forall P cards → ∀ c, valid_card c → P c.
Proof.
  intros HP c Hc. rewrite Forall_forall in HP.
  apply HP. by apply valid_card_cards.
Qed.

Lemma card_score_valid c :
  valid_card c → card_score c = Some (card_value c) ∧ 2 ≤ card_value c ≤ 11.
Proof.
  revert c. apply forall_cards.
  unfold cards. simpl. repeat constructor; by vm_compute.
Qed.

Lemma card_score_fixed c :
  valid_card c →
  ∃ rank, index values (rank_index c) = Some rank
          ∧ card_score c = Some (fixed_value rank)
          ∧ is_ace c = bool_decide (rank = "Ace").
Proof.
  revert c. apply forall_cards.
  unfold cards. simpl.
  repeat constructor; eexists; (split; [|split]); by vm_compute.
Qed.

Lemma is_ace_value c : valid_card c → is_ace c = bool_decide (card_value c = 11).
Proof.
  intros Hc. unfold is_ace. destruct (card_score_valid c Hc) as [-> _].
  apply bool_decide_ext. split; [by intros [= ->]|by intros ->].
Qed.

(** ** Scoring *)

Lemma count_aces_cons c hand :
  count_aces (c :: hand) = ((if is_ace c then 1 else 0) + count_aces hand)%nat.
Proof.
  unfold count_aces. rewrite filter_cons. case_decide as E.
  - apply Is_true_true in E. by rewrite E.
  - apply Is_true_false in E. by rewrite E.
Qed.

Lemma count_aces_length hand : (count_aces hand ≤ length hand)%nat.
Proof. apply length_filter. Qed.

Lemma score_range_valid hand total aces :
  Forall valid_card hand →
  score_range hand total aces
  = Some (total + hand_total hand, (aces + count_aces hand)%nat).
Proof.
  intros Hv. revert total aces.
  induction Hv as [|c hand Hc _ IH]; intros total aces.
  - simpl. do 2 f_equal; [lia | unfold count_aces; simpl; lia].
  - rewrite count_aces_cons, (is_ace_value c Hc). simpl.
    destruct (card_score_valid c Hc) as [-> _]. simpl.
    rewrite IH. do 2 f_equal; [lia|].
    case_bool_decide; lia.
Qed.

Lemma score_valid hand :
  Forall valid_card hand →
  score hand = Some (demote (count_aces hand) (hand_total hand)).
Proof.
  intros Hv. unfold score. rewrite (score_range_valid _ _ _ Hv). simpl.
  by rewrite Z.add_0_l.
Qed.

(** The second loop subtracts ten [k] times, where [k] is the least number
    of demotions that brings the total to 21 or below, or all the Aces. *)
Lemma demote_spec aces total :
  ∃ k : nat,
    (k ≤ aces)%nat
    ∧ demote aces total = total - 10 * Z.of_nat k
    ∧ (demote aces total ≤ 21 ∨ k = aces)
    ∧ ∀ j : nat, (j < k)%nat → total - 10 * Z.of_nat j > 21.
Proof.
  revert total. induction aces as [|aces IH]; intros total; simpl.
  - exists 0%nat. repeat split; [lia | lia | by right | lia].
  - case_bool_decide as Ht.
    + destruct (IH (total - 10)) as (k & Hk & Hd & Hstop & Hmin).
      exists (S k). repeat split; [lia | lia | |].
      * destruct Hstop; [by left | right; lia].
      * intros [|j] Hj; [lia|]. specialize (Hmin j). lia.
    + exists 0%nat. repeat split; [lia | lia | left; lia | lia].
Qed.

Lemma hand_total_lower hand :
  Forall valid_card hand →
  2 * Z.of_nat (length hand) + 9 * Z.of_nat (count_aces hand) ≤ hand_total hand.
Proof.
  induction 1 as [|c hand Hc _ IH]; simpl; [unfold count_aces; simpl; lia|].
  rewrite count_aces_cons, (is_ace_value c Hc).
  destruct (card_score_valid c Hc) as [_ Hr].
  case_bool_decide; lia.
Qed.

(** A score is never below the number of cards of the hand. *)
Lemma score_length hand s :
  Forall valid_card hand → score hand = Some s → Z.of_nat (length hand) ≤ s.
Proof.
  intros Hv. rewrite (score_valid _ Hv). intros [= <-].
  destruct (demote_spec (count_aces hand) (hand_total hand)) as (k & Hk & -> & _).
  pose proof (hand_total_lower hand Hv).
  pose proof (count_aces_length hand). lia.
Qed.

Lemma assigned_total_demotions hand low :
  Forall valid_card hand →
  ∃ j : nat, (j ≤ count_aces hand)%nat
             ∧ assigned_total hand low = hand_total hand - 10 * Z.of_nat j.
Proof.
  intros Hv. revert low.
  induction Hv as [|c hand Hc _ IH]; intros low; simpl.
  - exists 0%nat. split; [lia | done].
  - destruct (IH (tl low)) as (j & Hj & ->).
    rewrite count_aces_cons, (is_ace_value c Hc).
    case_bool_decide as Ha; simpl.
    + destruct (hd false low); [exists (S j) | exists j]; split; lia.
    + exists j. split; lia.
Qed.

Lemma demotions_assigned_total hand (k : nat) :
  Forall valid_card hand → (k ≤ count_aces hand)%nat →
  ∃ low, assigned_total hand low = hand_total hand - 10 * Z.of_nat k.
Proof.
  intros Hv. revert k.
  induction Hv as [|c hand Hc _ IH]; intros k; simpl.
  - unfold count_aces. simpl. intros Hk. exists []. lia.
  - rewrite count_aces_cons, (is_ace_value c Hc).
    case_bool_decide as Ha; simpl; intros Hk.
    + destruct k as [|k].
      * destruct (IH 0%nat) as (low & Hlow); [lia|].
        exists (false :: low). simpl. lia.
      * destruct (IH k) as (low & Hlow); [lia|].
        exists (true :: low). simpl. lia.
    + destruct (IH k) as (low & Hlow); [lia|].
      exists (false :: low). simpl. lia.
Qed.

(** C5.  For every hand of cards, each card has the fixed value of its rank
    (2 to 10 at face value, Jack, Queen and King 10, Ace 11) and counts as
    an Ace exactly when its rank is "Ace"; [score] is the
    sum of these values less ten for each of [k] demoted Aces, where [k] is
    what the loop "while the total exceeds 21 and an Ace still counts 11"
    yields: the total is at most 21 or every Ace is demoted, and each
    demotion happened above 21.  The result is the total of the hand under
    one assignment of 11 or 1 to each Ace, and it is at most 21 whenever
    some assignment is. *)
Theorem score_demotes_aces (hand : list card) :
  Forall valid_card hand →
  Forall (λ c, ∃ rank, index values (rank_index c) = Some rank
                       ∧ card_score c = Some (fixed_value rank)
                       ∧ is_ace c = bool_decide (rank = "Ace")) hand
  ∧ ∃ k : nat,
      (k ≤ count_aces hand)%nat
      ∧ score hand = Some (hand_total hand - 10 * Z.of_nat k)
      ∧ (hand_total hand - 10 * Z.of_nat k ≤ 21 ∨ k = count_aces hand)
      ∧ (∀ j : nat, (j < k)%nat → hand_total hand - 10 * Z.of_nat j > 21)
      ∧ (∃ low, score hand = Some (assigned_total hand low))
      ∧ (∀ low, assigned_total hand low ≤ 21 →
                hand_total hand - 10 * Z.of_nat k ≤ 21).
Proof.
  intros Hv. split.
  { eapply Forall_impl; [exact Hv|]. intros c Hc. by apply card_score_fixed. }
  destruct (demote_spec (count_aces hand) (hand_total hand))
    as (k & Hk & Hd & Hstop & Hmin).
  exists k. rewrite (score_valid _ Hv), Hd in *.
  repeat split; [done | done | done | |].
  - destruct (demotions_assigned_total hand k Hv Hk) as (low & Hlow).
    exists low. by rewrite Hlow.
  - intros low Hlow.
    destruct (assigned_total_demotions hand low Hv) as (j & Hj & Hj').
    destruct Hstop as [Hle| ->]; [done | lia].
Qed.

Lemma score_demotes_aces_witness :
  Forall valid_card [12; 25; 8]
  ∧ ∃ k : nat, score [12; 25; 8] = Some (hand_total [12; 25; 8] - 10 * Z.of_nat k).
Proof.
  assert (Hv : Forall valid_card [12; 25; 8])
    by (repeat constructor; unfold valid_card; lia).
  split; [exact Hv|].
  destruct (score_demotes_aces _ Hv) as (_ & k & _ & Hs & _).
  by exists k.
Defined.

(** C9.  On the values 0 to 51 the decomposition into rank position
    ([c % 13]) and suit position ([c % 4]) is one-to-one and onto the
    13 x 4 combinations, and so is the name [card.String] prints: two cards
    are equal exactly when their rank and suit are. *)
Theorem card_encoding_bijective :
  (∀ c, valid_card c → 0 ≤ rank_index c < 13 ∧ 0 ≤ suit_index c < 4)
  ∧ (∀ c1 c2, valid_card c1 → valid_card c2 →
       rank_index c1 = rank_index c2 → suit_index c1 = suit_index c2 → c1 = c2)
  ∧ (∀ r s, 0 ≤ r < 13 → 0 ≤ s < 4 →
       ∃ c, valid_card c ∧ rank_index c = r ∧ suit_index c = s)
  ∧ (∀ c1 c2, valid_card c1 → valid_card c2 →
       is_Some (card_String c1) ∧ (card_String c1 = card_String c2 → c1 = c2)).
Proof.
  split; [|split; [|split]].
  - apply forall_cards. unfold cards, new_deck. simpl.
    repeat constructor; by vm_compute.
  - assert (Hall : Forall (λ c1, Forall (λ c2,
              rank_index c1 = rank_index c2 → suit_index c1 = suit_index c2 →
              c1 = c2) cards) cards).
    { apply (bool_decide_unpack _). by vm_compute. }
    intros c1 c2 H1 H2.
    apply (forall_cards _ Hall) in H1.
    by apply (forall_cards _ H1).
  - intros r s Hr Hs. exists (card_of r s).
    unfold valid_card, card_of, rank_index, suit_index.
    change (len values) with 13. change (len suits) with 4.
    repeat split; Z.to_euclidean_division_equations; lia.
  - assert (Hall : Forall (λ c1, Forall (λ c2,
              is_Some (card_String c1)
              ∧ (card_String c1 = card_String c2 → c1 = c2)) cards) cards).
    { apply (bool_decide_unpack _). by vm_compute. }
    intros c1 c2 H1 H2.
    apply (forall_cards _ Hall) in H1.
    by apply (forall_cards _ H1).
Qed.

Lemma card_encoding_bijective_witness :
  ∃ c, valid_card c ∧ rank_index c = 12 ∧ suit_index c = 2.
Proof.
  destruct card_encoding_bijective as (_ & _ & Hsurj & _).
  apply (Hsurj 12 2); lia.
Defined.

(** ** Commands that change nothing *)

Lemma transition_terminal action s :
  Stand s = true ∨ Bust s = true → transition action s = Some s.
Proof.
  intros Hterm. unfold transition, hit, stand.
  assert (negb (Stand s) && negb (Bust s) = false) as ->
    by (destruct Hterm as [-> | ->]; [done | by rewrite andb_false_r]).
  by repeat case_bool_decide.
Qed.

Lemma transition_other action s :
  action ≠ "hit" → action ≠ "stand" → transition action s = Some s.
Proof.
  intros Hhit Hstand. unfold transition.
  by rewrite !bool_decide_eq_false_2.
Qed.

(** A command that leaves the actor's state alone leaves the whole process
    alone, and the handler renders that state. *)
Lemma gameHandler_unchanged gameID action srv session s :
  transition action s = Some s →
  gameIDRe_MatchString gameID = true →
  getSession srv gameID = Some session →
  actors srv !! commands session = Some s →
  gameHandler gameID action srv = Some (Page s gameID, srv).
Proof.
  intros Htr Hid Hsess Hact. unfold gameHandler, submit, gameLoop_step.
  rewrite Hid, Hsess, Hact. simpl. rewrite Htr. simpl.
  rewrite insert_id by done. by destruct srv.
Qed.

(** C6.  In a state with [Stand] or [Bust] set, "hit" and "stand" leave the
    state as it is and the reply is that same state; nothing panics.  So
    does the handler: it renders the state and the process is unchanged. *)
Theorem terminal_actions_are_noops (s : GameState) (action : string) :
  Stand s = true ∨ Bust s = true →
  action = "hit" ∨ action = "stand" →
  gameLoop_step action s = Some (s, s)
  ∧ ∀ srv gameID session,
      gameIDRe_MatchString gameID = true →
      getSession srv gameID = Some session →
      actors srv !! commands session = Some s →
      gameHandler gameID action srv = Some (Page s gameID, srv).
Proof.
  intros Hterm _.
  pose proof (transition_terminal action s Hterm) as Htr. split.
  - unfold gameLoop_step. by rewrite Htr.
  - intros srv gameID session. by apply gameHandler_unchanged.
Qed.

Lemma terminal_actions_are_noops_witness :
  let s := mkGameState [8; 6; 3] [12] [4; 5] true false "Bust!" in
  gameLoop_step "hit" s = Some (s, s).
Proof.
  intros s.
  apply (terminal_actions_are_noops s "hit"); [by right | by left].
Defined.

(** C10.  A command whose action is neither "hit" nor "stand" leaves the
    state as it is and is answered with that state: the [switch] has no
    case for it.  The empty action [newHandler] sends to the session it has
    just created is one: the process is left as [createGame] made it. *)
Theorem other_actions_only_read (s : GameState) (action : string) :
  action ≠ "hit" → action ≠ "stand" →
  gameLoop_step action s = Some (s, s)
  ∧ (∀ srv gameID session,
      gameIDRe_MatchString gameID = true →
      getSession srv gameID = Some session →
      actors srv !! commands session = Some s →
      gameHandler gameID action srv = Some (Page s gameID, srv))
  ∧ ∀ unixNano now rnd srv gameID session srv',
      createGame unixNano now rnd srv = Some (gameID, session, srv') →
      newHandler unixNano now rnd srv
      = Some (SeeOther ("/game/" +:+ gameID +:+ "/hit"), srv').
Proof.
  intros Hhit Hstand.
  pose proof (transition_other action s Hhit Hstand) as Htr.
  split; [|split].
  - unfold gameLoop_step. by rewrite Htr.
  - intros srv gameID session. by apply gameHandler_unchanged.
  - intros unixNano now rnd srv gameID session srv' Hcreate.
    unfold newHandler. rewrite Hcreate. simpl.
    unfold createGame in Hcreate.
    destruct (initialState rnd) as [initial|]; [simpl in Hcreate|done].
    injection Hcreate as <- <- <-.
    unfold submit, gameLoop_step. simpl.
    rewrite lookup_insert_eq. simpl.
    by rewrite insert_insert_eq.
Qed.

Lemma other_actions_only_read_witness :
  let s := mkGameState [8] [12] [4; 5] false false "" in
  gameLoop_step "" s = Some (s, s).
Proof.
  intros s. by apply (other_actions_only_read s "").
Defined.

(** ** The dealer's loop and the outcome *)

(** When the dealer's loop ends, the dealer holds the cards it had and a
    prefix [drawn] of the deck, [dealerScore] is the score of that hand, and
    the loop condition is false. *)
Lemma dealer_loop_result deck hand ds hand' deck' ds' :
  score hand = Some ds →
  dealer_loop deck hand ds = Some (hand', deck', ds') →
  score hand' = Some ds'
  ∧ dealer_draws ds' hand' = Some false
  ∧ ∃ drawn, hand' = hand ++ drawn ∧ deck = drawn ++ deck'.
Proof.
  revert hand ds. induction deck as [|c deck IH]; intros hand ds Hs; simpl.
  - destruct (dealer_draws ds hand) as [[]|] eqn:Hd; simpl; [done | | done].
    intros [= <- <- <-]. repeat split; [done | done |].
    exists []. by rewrite app_nil_r.
  - destruct (dealer_draws ds hand) as [[]|] eqn:Hd; simpl; [ | | done].
    + destruct (score (hand ++ [c])) as [s|] eqn:Hs'; simpl; [|done].
      intros Hloop. destruct (IH _ _ Hs' Hloop) as (? & ? & drawn & -> & ->).
      repeat split; [done | done |].
      exists (c :: drawn). by rewrite <- app_assoc.
    + intros [= <- <- <-]. repeat split; [done | done |].
      exists []. by rewrite app_nil_r.
Qed.

Lemma outcome_spec p d : outcome_of_message (outcome p d) = Some (spec_outcome p d).
Proof.
  unfold outcome, spec_outcome.
  repeat case_bool_decide; try lia; by vm_compute.
Qed.

(** C7.  When "stand" on a running game returns, the dealer's hand scores
    the [dealerScore] the loop ended with and the message is the outcome of
    the rule: dealer above 21, the player wins; equal scores, push; player
    above dealer, the player wins; otherwise the player loses.  A player
    standing on 18 against a dealer who must draw on Ace+6 and ends on
    Ace+6+5+7, a hard 19, is told "You lose!". *)
Theorem stand_outcome :
  (∀ s s',
     Stand s = false → Bust s = false →
     transition "stand" s = Some s' →
     ∃ p d,
       score (PlayerHand s') = Some p
       ∧ score (DealerHand s') = Some d
       ∧ dealer_draws d (DealerHand s') = Some false
       ∧ Stand s' = true
       ∧ outcome_of_message (Message s') = Some (spec_outcome p d))
  ∧ (let s := mkGameState [8; 6] [12] [4; 3; 5; 0; 1] false false "" in
     score (PlayerHand s) = Some 18
     ∧ score [12; 4] = Some 17 ∧ dealer_draws 17 [12; 4] = Some true
     ∧ score [12; 4; 3; 5] = Some 19
     ∧ hand_total [12; 4; 3; 5] - 10 * Z.of_nat (count_aces [12; 4; 3; 5]) = 19
     ∧ transition "stand" s
       = Some (mkGameState [8; 6] [12; 4; 3; 5] [0; 1] false true "You lose!")).
Proof.
  split; [|by vm_compute].
  intros s s' Hstand Hbust. unfold transition. simpl. unfold stand.
  rewrite Hstand, Hbust. simpl.
  destruct (score (DealerHand s)) as [ds|] eqn:Hds; simpl; [|done].
  destruct (dealer_loop (Deck s) (DealerHand s) ds) as [[[hand deck] d]|] eqn:Hloop;
    simpl; [|done].
  destruct (score (PlayerHand s)) as [p|] eqn:Hp; simpl; [|done].
  intros [= <-]. simpl.
  destruct (dealer_loop_result _ _ _ _ _ _ Hds Hloop) as (Hd & Hstop & _).
  exists p, d. split_and!; [done .. | apply outcome_spec].
Qed.

Lemma stand_outcome_witness :
  let s := mkGameState [8; 6] [12] [4; 3; 5; 0; 1] false false "" in
  ∃ s' p d,
    transition "stand" s = Some s'
    ∧ score (PlayerHand s') = Some p ∧ score (DealerHand s') = Some d
    ∧ outcome_of_message (Message s') = Some (spec_outcome p d).
Proof.
  intros s.
  destruct stand_outcome as [Hall _].
  destruct (Hall s (mkGameState [8; 6] [12; 4; 3; 5] [0; 1] false true "You lose!"))
    as (p & d & Hp & Hd & _ & _ & Hmsg); [done | done | by vm_compute |].
  eexists _, p, d. split_and!; [by vm_compute | done ..].
Defined.

(** ** The deck: shuffle, deal and draws *)

Lemma insert_swap_head (l : list card) j x y :
  l !! j = Some y → y :: <[j:=x]> l ≡ₚ x :: l.
Proof.
  revert j. induction l as [|a l IH]; intros [|j]; simpl; try done.
  - intros [= ->]. apply perm_swap.
  - intros Hj. rewrite (perm_swap a y), (IH j Hj). apply perm_swap.
Qed.

Lemma swap_Permutation i j deck deck' :
  swap i j deck = Some deck' → deck' ≡ₚ deck.
Proof.
  unfold swap.
  destruct (deck !! i) as [x|] eqn:Hi; simpl; [|done].
  destruct (deck !! j) as [y|] eqn:Hj; simpl; [|done].
  intros [= <-]. revert i j Hi Hj.
  induction deck as [|a deck IH]; intros [|i] [|j]; simpl; try done.
  - by intros [= ->] [= ->].
  - intros [= ->] Hj. by apply insert_swap_head.
  - intros Hi [= ->]. rewrite (insert_swap_head _ _ _ _ Hi). done.
  - intros Hi Hj. by rewrite (IH i j Hi Hj).
Qed.

Lemma swap_is_Some i j (deck : list card) :
  (i < length deck)%nat → (j < length deck)%nat → is_Some (swap i j deck).
Proof.
  intros Hi Hj. unfold swap.
  destruct (lookup_lt_is_Some_2 deck i Hi) as [x ->].
  destruct (lookup_lt_is_Some_2 deck j Hj) as [y ->].
  by eexists.
Qed.

(** The choices of the generator lie in the range [rand.Shuffle] draws them
    from: [j] in [[0, i]] at index [i]. *)
Section shuffled.
Variable rnd : nat → nat.
Hypothesis rnd_range : ∀ n, (rnd n ≤ n)%nat.

Lemma Shuffle_from_Permutation i deck :
  (i < length deck)%nat →
  ∃ deck', Shuffle_from i rnd deck = Some deck' ∧ deck' ≡ₚ deck.
Proof.
  revert deck. induction i as [|i IH]; intros deck Hi; simpl.
  - by exists deck.
  - destruct (swap_is_Some (S i) (rnd (S i)) deck) as [deck1 Hswap];
      [done | specialize (rnd_range (S i)); lia |].
    rewrite Hswap. simpl.
    pose proof (swap_Permutation _ _ _ _ Hswap) as Hperm.
    destruct (IH deck1) as (deck' & -> & Hperm').
    { rewrite (Permutation_length Hperm). lia. }
    exists deck'. split; [done|]. by rewrite Hperm'.
Qed.

(** [createGame] deals one card to each hand. *)
Lemma initialState_deal :
  ∃ c0 c1 deck,
    initialState rnd = Some (mkGameState [c0] [c1] deck false false "")
    ∧ length deck = 50%nat
    ∧ c0 :: c1 :: deck ≡ₚ new_deck.
Proof.
  unfold initialState.
  destruct (Shuffle_from_Permutation (length new_deck - 1) new_deck)
    as (deck & Hsh & Hperm); [simpl; lia|].
  unfold Shuffle. rewrite Hsh. simpl.
  pose proof (Permutation_length Hperm) as Hlen.
  destruct deck as [|c0 [|c1 deck]]; [done | done |].
  exists c0, c1, deck. split; [done|]. split; [|done].
  simpl in Hlen. lia.
Qed.

End shuffled.

Lemma NoDup_new_deck : NoDup new_deck.
Proof. apply NoDup_fmap_2; [apply _ | apply NoDup_seq]. Qed.

(** ** The invariant of a session *)

Lemma valid_new_deck : Forall valid_card new_deck.
Proof. apply Forall_forall. intros c Hc. by apply valid_card_cards. Qed.

Lemma partition_valid s :
  partition s → Forall valid_card (PlayerHand s ++ DealerHand s ++ Deck s).
Proof. unfold partition. intros ->. apply valid_new_deck. Qed.

Lemma partition_length s :
  partition s →
  (length (PlayerHand s) + length (DealerHand s) + length (Deck s) = 52)%nat.
Proof.
  intros Hp. apply Permutation_length in Hp.
  rewrite !length_app in Hp. simpl in Hp. lia.
Qed.

Lemma hasAce_valid hand : Forall valid_card hand → is_Some (hasAce hand).
Proof.
  induction 1 as [|c hand Hc _ IH]; simpl; [by eexists|].
  destruct (card_score_valid c Hc) as [-> _]. simpl.
  by case_bool_decide.
Qed.

Lemma score_is_Some hand : Forall valid_card hand → is_Some (score hand).
Proof. intros Hv. rewrite (score_valid _ Hv). by eexists. Qed.

Lemma isBlackjack_is_Some hand : Forall valid_card hand → is_Some (isBlackjack hand).
Proof.
  intros Hv. unfold isBlackjack. destruct (score_is_Some _ Hv) as [s ->].
  case_bool_decide; by eexists.
Qed.

(** With eighteen cards or more between the dealer's hand and the deck, the
    dealer's loop ends before the deck does: a hand of eighteen cards scores
    eighteen at least. *)
Lemma dealer_loop_is_Some deck hand ds :
  Forall valid_card (hand ++ deck) →
  score hand = Some ds →
  (18 ≤ length hand + length deck)%nat →
  is_Some (dealer_loop deck hand ds).
Proof.
  revert hand ds. induction deck as [|c deck IH]; intros hand ds Hv Hs Hlen.
  - rewrite app_nil_r in Hv. simpl in *.
    pose proof (score_length _ _ Hv Hs).
    unfold dealer_draws. rewrite !bool_decide_eq_false_2 by lia.
    by eexists.
  - simpl. apply Forall_app in Hv as Hv'. destruct Hv' as [Hvh _].
    assert (is_Some (dealer_draws ds hand)) as [more ->].
    { unfold dealer_draws. repeat case_bool_decide; try by eexists.
      by apply hasAce_valid. }
    simpl. destruct more; [|by eexists].
    rewrite cons_middle, app_assoc in Hv.
    apply Forall_app in Hv as Hv'. destruct Hv' as [Hvc _].
    destruct (score_is_Some _ Hvc) as [s Hs']. rewrite Hs'. simpl.
    apply IH; [done | done |]. rewrite length_app. simpl in *. lia.
Qed.

Lemma hit_inv s : session_inv s → ∃ s', hit s = Some s' ∧ session_inv s'.
Proof.
  intros [Hpart Hrun]. unfold hit.
  destruct (Stand s) eqn:Hstand; [by exists s|].
  destruct (Bust s) eqn:Hbust; [by exists s|]. simpl.
  destruct (Hrun Hstand Hbust) as (Hd & p & Hp & Hp21).
  pose proof (partition_valid s Hpart) as Hv.
  pose proof (partition_length s Hpart) as Hlen.
  apply Forall_app in Hv as [Hvp Hv]. apply Forall_app in Hv as [Hvd Hvk].
  pose proof (score_length _ _ Hvp Hp).
  destruct (Deck s) as [|c deck] eqn:Hdeck; [simpl in Hlen; lia|].
  apply Forall_cons in Hvk as [Hvc Hvk].
  assert (Hvh : Forall valid_card (PlayerHand s ++ [c])).
  { apply Forall_app. split; [done|]. by apply Forall_singleton. }
  unfold index. simpl.
  destruct (score_is_Some _ Hvh) as [sc Hsc]. rewrite Hsc. simpl.
  destruct (isBlackjack_is_Some _ Hvh) as [bj ->]. simpl.
  assert (Hpart' : (PlayerHand s ++ [c]) ++ DealerHand s ++ deck ≡ₚ new_deck).
  { unfold partition in Hpart.
    rewrite <- Hpart, Hdeck, <- app_assoc. f_equiv. simpl.
    apply Permutation_middle. }
  case_bool_decide as Hgt; destruct bj; eexists; (split; [done|]);
    (split; [exact Hpart'|]); intros Hs Hb; simpl in *; try done.
  split; [done|]. exists sc. split; [done | lia].
Qed.

Lemma stand_partition s s' :
  stand s = Some s' →
  PlayerHand s' ++ DealerHand s' ++ Deck s'
  = PlayerHand s ++ DealerHand s ++ Deck s.
Proof.
  unfold stand. destruct (negb (Stand s) && negb (Bust s)); [|by intros [= <-]].
  destruct (score (DealerHand s)) as [ds|] eqn:Hds; simpl; [|done].
  destruct (dealer_loop (Deck s) (DealerHand s) ds) as [[[hand deck] d]|] eqn:Hloop;
    simpl; [|done].
  destruct (score (PlayerHand s)); simpl; [|done].
  intros [= <-]. simpl.
  destruct (dealer_loop_result _ _ _ _ _ _ Hds Hloop) as (_ & _ & drawn & -> & ->).
  by rewrite <- app_assoc.
Qed.

Lemma stand_inv s : session_inv s → ∃ s', stand s = Some s' ∧ session_inv s'.
Proof.
  intros [Hpart Hrun].
  assert (Hsome : is_Some (stand s)); [|destruct Hsome as [s' Hs']].
  { unfold stand.
    destruct (Stand s) eqn:Hstand; [by eexists|].
    destruct (Bust s) eqn:Hbust; [by eexists|]. simpl.
    destruct (Hrun Hstand Hbust) as (Hd & p & Hp & Hp21).
    pose proof (partition_valid s Hpart) as Hv.
    pose proof (partition_length s Hpart) as Hlen.
    apply Forall_app in Hv as [Hvp Hv].
    pose proof (score_length _ _ Hvp Hp).
    apply Forall_app in Hv as Hv'. destruct Hv' as [Hvd _].
    destruct (score_is_Some _ Hvd) as [ds Hds]. rewrite Hds. simpl.
    destruct (dealer_loop_is_Some (Deck s) (DealerHand s) ds) as [[[hand deck] d] ->];
      [done | done | lia |].
    simpl. rewrite Hp. simpl. by eexists. }
  exists s'. split; [done|]. split.
  - unfold partition. by rewrite (stand_partition _ _ Hs').
  - unfold stand in Hs'.
    destruct (Stand s) eqn:Hstand; [injection Hs' as <-; congruence|].
    destruct (Bust s) eqn:Hbust;
      [injection Hs' as <-; intros ??; congruence|].
    simpl in Hs'.
    destruct (score (DealerHand s)); simpl in Hs'; [|done].
    destruct (dealer_loop _ _ _) as [[[hand deck] d]|]; simpl in Hs'; [|done].
    destruct (score (PlayerHand s)); simpl in Hs'; [|done].
    injection Hs' as <-. intros Hs. simpl in Hs. done.
Qed.

Lemma hit_partition s s' :
  hit s = Some s' →
  PlayerHand s' ++ DealerHand s' ++ Deck s'
  ≡ₚ PlayerHand s ++ DealerHand s ++ Deck s.
Proof.
  unfold hit. destruct (negb (Stand s) && negb (Bust s)); [|by intros [= <-]].
  destruct (Deck s) as [|c deck]; [done|]. unfold index. simpl.
  destruct (score (PlayerHand s ++ [c])) as [sc|]; simpl; [|done].
  intros Hs'.
  assert (PlayerHand s' = PlayerHand s ++ [c]
          ∧ DealerHand s' = DealerHand s ∧ Deck s' = deck) as (-> & -> & ->).
  { case_bool_decide;
      destruct (isBlackjack (PlayerHand s ++ [c])) as [[]|];
      simpl in Hs'; try done; by injection Hs' as <-. }
  rewrite <- app_assoc. f_equiv. simpl. apply Permutation_middle.
Qed.

Lemma transition_partition action s s' :
  transition action s = Some s' →
  PlayerHand s' ++ DealerHand s' ++ Deck s'
  ≡ₚ PlayerHand s ++ DealerHand s ++ Deck s.
Proof.
  unfold transition. repeat case_bool_decide.
  - apply hit_partition.
  - intros Hs'. by rewrite (stand_partition _ _ Hs').
  - by intros [= <-].
Qed.

Lemma transition_inv action s :
  session_inv s → ∃ s', transition action s = Some s' ∧ session_inv s'.
Proof.
  intros Hinv. unfold transition. repeat case_bool_decide.
  - by apply hit_inv.
  - by apply stand_inv.
  - by exists s.
Qed.

Lemma gameLoop_inv commands s :
  session_inv s →
  ∃ s' replies,
    gameLoop commands s = Some (s', replies)
    ∧ session_inv s'
    ∧ length replies = length commands
    ∧ Forall partition replies.
Proof.
  revert s. induction commands as [|action commands IH]; intros s Hinv; simpl.
  - exists s, []. by split_and!.
  - unfold gameLoop_step.
    destruct (transition_inv action s Hinv) as (s1 & -> & Hinv1). simpl.
    destruct (IH s1 Hinv1) as (s' & replies & -> & Hinv' & Hlen & Hall). simpl.
    exists s', (s1 :: replies). split_and!; [done | done | simpl; lia |].
    constructor; [by destruct Hinv1 | done].
Qed.

Lemma initialState_inv rnd :
  (∀ n, (rnd n ≤ n)%nat) →
  ∃ s, initialState rnd = Some s ∧ session_inv s.
Proof.
  intros Hrnd.
  destruct (initialState_deal rnd Hrnd) as (c0 & c1 & deck & -> & Hlen & Hperm).
  eexists. split; [done|]. split; [exact Hperm|].
  intros _ _. simpl. split; [done|].
  assert (Hv : Forall valid_card [c0]).
  { apply Forall_singleton. eapply Forall_inv. rewrite Hperm. apply valid_new_deck. }
  rewrite (score_valid _ Hv).
  destruct (card_score_valid c0 (Forall_inv Hv)) as [_ Hr].
  eexists. split; [done|].
  destruct (demote_spec (count_aces [c0]) (hand_total [c0])) as (k & _ & -> & _).
  simpl. lia.
Qed.

(** C4.  From the state [createGame] builds, whatever the shuffle chose,
    every sequence of commands runs to its end without a panic, and in the
    state it reaches, as in every reply on the way, the player's hand, the
    dealer's hand and the deck together are a permutation of the 52 distinct
    cards of a new deck: no card twice, none missing.  Every single command
    that returns leaves the three parts a permutation of what they were. *)
Theorem deck_partition_invariant (rnd : nat → nat) (commands : list string) :
  (∀ n, (rnd n ≤ n)%nat) →
  NoDup new_deck ∧ length new_deck = 52%nat
  ∧ (∃ s0 s replies,
       initialState rnd = Some s0
       ∧ gameLoop commands s0 = Some (s, replies)
       ∧ PlayerHand s ++ DealerHand s ++ Deck s ≡ₚ new_deck
       ∧ NoDup (PlayerHand s ++ DealerHand s ++ Deck s)
       ∧ Forall (λ r, PlayerHand r ++ DealerHand r ++ Deck r ≡ₚ new_deck) replies)
  ∧ ∀ action s s',
      transition action s = Some s' →
      PlayerHand s' ++ DealerHand s' ++ Deck s'
      ≡ₚ PlayerHand s ++ DealerHand s ++ Deck s.
Proof.
  intros Hrnd. split_and!; [apply NoDup_new_deck | done | | apply transition_partition].
  destruct (initialState_inv rnd Hrnd) as (s0 & Hs0 & Hinv0).
  destruct (gameLoop_inv commands s0 Hinv0) as (s & replies & Hrun & [Hpart _] & _ & Hall).
  exists s0, s, replies. split_and!; [done | done | done | | done].
  unfold partition in Hpart. rewrite Hpart. apply NoDup_new_deck.
Qed.

Lemma deck_partition_invariant_witness :
  ∃ s0 s replies,
    initialState (λ _, 0%nat) = Some s0
    ∧ gameLoop ["hit"; "hit"; "stand"; "hit"] s0 = Some (s, replies)
    ∧ PlayerHand s ++ DealerHand s ++ Deck s ≡ₚ new_deck.
Proof.
  destruct (deck_partition_invariant (λ _, 0%nat) ["hit"; "hit"; "stand"; "hit"])
    as (_ & _ & (s0 & s & replies & H0 & Hrun & Hperm & _) & _); [lia|].
  exists s0, s, replies. split; [exact H0|]. split; [exact Hrun | exact Hperm].
Defined.

(** C2 fails on the code: the state [createGame] builds does not have two
    cards in each hand and 48 in the deck. *)
Lemma initial_deal_is_not_two_cards_each :
  ∃ s, initialState (λ i, i) = Some s
       ∧ ¬ (length (PlayerHand s) = 2%nat ∧ length (DealerHand s) = 2%nat
            ∧ length (Deck s) = 48%nat).
Proof.
  eexists. split; [by vm_compute|]. simpl. lia.
Qed.

(** C2, amended.  [createGame] makes a deck of the 52 distinct cards,
    shuffles it, and deals exactly one card to the player's hand and exactly
    one to the dealer's: the state the new session starts from has
    [|PlayerHand| = 1], [|DealerHand| = 1] and 50 cards left in the deck,
    with neither flag set, and the session is in the registry under the
    identifier returned. *)
Theorem createGame_deals_one_card_each
    (unixNano now : Z) (rnd : nat → nat) (srv : Server) :
  (∀ n, (rnd n ≤ n)%nat) →
  NoDup new_deck ∧ length new_deck = 52%nat
  ∧ ∃ gameID session srv' s0,
      createGame unixNano now rnd srv = Some (gameID, session, srv')
      ∧ getSession srv' gameID = Some session
      ∧ actors srv' !! commands session = Some s0
      ∧ length (PlayerHand s0) = 1%nat
      ∧ length (DealerHand s0) = 1%nat
      ∧ length (Deck s0) = 50%nat
      ∧ PlayerHand s0 ++ DealerHand s0 ++ Deck s0 ≡ₚ new_deck
      ∧ Stand s0 = false ∧ Bust s0 = false.
Proof.
  intros Hrnd. split; [apply NoDup_new_deck|]. split; [done|].
  destruct (initialState_deal rnd Hrnd) as (c0 & c1 & deck & Hinit & Hlen & Hperm).
  unfold createGame. rewrite Hinit. simpl.
  eexists _, _, _, _. split; [done|]. unfold getSession. simpl.
  rewrite !lookup_insert_eq. by split_and!.
Qed.

Lemma createGame_deals_one_card_each_witness :
  ∃ gameID session srv' s0,
    createGame 1 2 (λ i, i) (mkServer ∅ ∅ 0) = Some (gameID, session, srv')
    ∧ actors srv' !! commands session = Some s0
    ∧ length (PlayerHand s0) = 1%nat ∧ length (DealerHand s0) = 1%nat
    ∧ length (Deck s0) = 50%nat.
Proof.
  destruct (createGame_deals_one_card_each 1 2 (λ i, i) (mkServer ∅ ∅ 0))
    as (_ & _ & gameID & session & srv' & s0 & Hc & _ & Ha & Hp & Hd & Hk & _);
    [lia|].
  exists gameID, session, srv', s0.
  split; [exact Hc|]. split; [exact Ha|]. split; [exact Hp|].
  split; [exact Hd | exact Hk].
Defined.

(** ** The dealer on a hard 17 *)

Lemma hard17_choices_range n : (hard17_choices n ≤ n)%nat.
Proof.
  unfold hard17_choices, choices.
  do 22 (destruct n as [|n]; [simpl; lia|]). simpl. lia.
Qed.

(** C1, on the code.  Ace+6+10 scores 17 with its Ace counted 1, so the hand
    is not soft; [hasAce] is true of it all the same and the loop condition
    holds.  In the game [createGame] sets up under [hard17_choices] the
    player hits once, to 18, and stands; the dealer, dealt the Ace, draws 6
    and 10 and then, on a hard 17, a fourth card. *)
Theorem dealer_draws_on_hard_17 :
  score [12; 4; 21] = Some 17
  ∧ hasSoftValue [12; 4; 21] = Some false
  ∧ hasAce [12; 4; 21] = Some true
  ∧ dealer_draws 17 [12; 4; 21] = Some true
  ∧ ∃ s0 s1 s2 s3,
      initialState hard17_choices = Some s0
      ∧ gameLoop [""; "hit"; "stand"] s0 = Some (s3, [s1; s2; s3])
      ∧ PlayerHand s2 = [8; 6] ∧ DealerHand s2 = [12]
      ∧ take 3 (Deck s2) = [4; 21; 5]
      ∧ score (PlayerHand s2) = Some 18
      ∧ PlayerHand s3 = [8; 6] ∧ DealerHand s3 = [12; 4; 21; 5]
      ∧ score (DealerHand s3) = Some 24
      ∧ Message s3 = "Dealer busts! You win!".
Proof.
  split_and!; [by vm_compute ..|].
  eexists _, _, _, _. split; [by vm_compute|].
  split; [by vm_compute|]. split_and!; by vm_compute.
Qed.

(** ** Drawing from an empty deck *)

Lemma hit_empty_deck s :
  Stand s = false → Bust s = false → Deck s = [] → hit s = None.
Proof. intros Hs Hb Hd. unfold hit. by rewrite Hs, Hb, Hd. Qed.

(** ** The registry *)

Lemma close_closed ch srv srv1 : close ch srv = Some srv1 → close ch srv1 = None.
Proof.
  unfold close. destruct (actors srv !! ch); [|done].
  intros [= <-]. simpl. by rewrite lookup_delete_eq.
Qed.

(** The actor of a session whose channel the pass closes panics in its
    deferred [close]. *)
Lemma cleanup_entry_old now id session process :
  expired now session = true → cleanup_entry now id session process = None.
Proof.
  unfold expired, cleanup_entry, actor_return. intros ->.
  destruct process as [srv|]; simpl; [|done].
  destruct (close (commands session) srv) as [srv1|] eqn:Hc; simpl; [|done].
  by rewrite (close_closed _ _ _ Hc).
Qed.

Lemma cleanup_entry_young now id session process :
  expired now session = false → cleanup_entry now id session process = process.
Proof. unfold expired, cleanup_entry. intros ->. by destruct process. Qed.

(** A fold of [cleanup_entry] over the entries [m]: the process is as it
    was when no entry is that of an old session, and ended otherwise. *)
Lemma cleanup_fold now srv (m : gmap string GameSession) :
  ((∀ id session, m !! id = Some session → expired now session = false) →
     map_fold (cleanup_entry now) (Some srv) m = Some srv)
  ∧ ((∃ id session, m !! id = Some session ∧ expired now session = true) →
     map_fold (cleanup_entry now) (Some srv) m = None).
Proof.
  apply (map_fold_weak_ind (λ r m,
    ((∀ id session, m !! id = Some session → expired now session = false) →
       r = Some srv)
    ∧ ((∃ id session, m !! id = Some session ∧ expired now session = true) →
       r = None))).
  - split; [done|]. intros (id & session & Hs & _). by rewrite lookup_empty in Hs.
  - intros i x m' r Hi [IHyoung IHold]. split.
    + intros Hall. rewrite cleanup_entry_young.
      * apply IHyoung. intros id session Hs. apply (Hall id).
        rewrite lookup_insert_ne; [done|]. intros <-. congruence.
      * apply (Hall i). by rewrite lookup_insert_eq.
    + intros (id & session & Hs & Hold).
      apply lookup_insert_Some in Hs as [[<- <-]|[_ Hs]].
      * by apply cleanup_entry_old.
      * rewrite IHold by (by exists id, session).
        by destruct (expired now x) eqn:Hx;
          [rewrite cleanup_entry_old | rewrite cleanup_entry_young].
Qed.

Lemma expired_false now session :
  expired now session = false ↔ Since now (created session) ≤ 30 * Minute.
Proof.
  unfold expired. rewrite bool_decide_eq_false. lia.
Qed.

Lemma cleanupOldGames_young now srv :
  (∀ id session, getSession srv id = Some session →
     Since now (created session) ≤ 30 * Minute) →
  cleanupOldGames now srv = Some srv.
Proof.
  intros Hall. apply cleanup_fold. intros id session Hs.
  apply expired_false. by apply (Hall id).
Qed.

Lemma cleanupOldGames_old now srv id session :
  getSession srv id = Some session →
  Since now (created session) > 30 * Minute →
  cleanupOldGames now srv = None.
Proof.
  intros Hs Hold. apply cleanup_fold. exists id, session. split; [done|].
  unfold expired. by apply bool_decide_eq_true_2.
Qed.

(** A pass the process survives found nothing to evict. *)
Lemma cleanupOldGames_Some now srv srv' :
  cleanupOldGames now srv = Some srv' → srv' = srv.
Proof.
  intros Hpass.
  assert (Hall : ∀ id session, getSession srv id = Some session →
            Since now (created session) ≤ 30 * Minute).
  { intros id session Hs.
    destruct (decide (Since now (created session) > 30 * Minute)) as [Hold|]; [|lia].
    rewrite (cleanupOldGames_old _ _ _ _ Hs Hold) in Hpass. done. }
  rewrite (cleanupOldGames_young _ _ Hall) in Hpass. by injection Hpass.
Qed.

Lemma createGame_games unixNano now rnd srv gameID session srv' :
  createGame unixNano now rnd srv = Some (gameID, session, srv') →
  games srv' = <[gameID := session]> (games srv).
Proof.
  unfold createGame. destruct (initialState rnd); simpl; [|done].
  by intros [= <- <- <-].
Qed.

(** No handler call adds an entry to the registry or removes one. *)
Lemma gameHandler_games gameID action srv r srv' :
  gameHandler gameID action srv = Some (r, srv') → games srv' = games srv.
Proof.
  unfold gameHandler.
  destruct (gameIDRe_MatchString gameID); simpl; [|by intros [= _ <-]].
  destruct (getSession srv gameID) as [session|]; [|by intros [= _ <-]].
  unfold submit.
  destruct (actors srv !! commands session) as [state|]; simpl; [|done].
  destruct (gameLoop_step action state) as [[state' reply]|]; simpl; [|done].
  by intros [= _ <-].
Qed.

(** C8 fails on the code: a session whose round the player has ended with
    "stand" is still in the registry. *)
Lemma session_remains_after_stand :
  ∃ gameID session srv state srv',
    createGame 1 2 (λ i, i) (mkServer ∅ ∅ 0) = Some (gameID, session, srv)
    ∧ standHandler gameID srv = Some (Page state gameID, srv')
    ∧ Stand state = true
    ∧ getSession srv' gameID = Some session.
Proof.
  eexists _, _, _, _, _. split; [by vm_compute|].
  split; [by vm_compute|]. split; by vm_compute.
Qed.

(** C8, amended.  A session whose round has ended with "stand" stays in
    the registry: handling a command for any session, "stand" included,
    leaves every entry as it is, and so does creating a game under another
    identifier.  An eviction pass removes no session created at most thirty
    minutes before it, and a pass that finds no older session leaves the
    process as it was. *)
Theorem stand_leaves_session_registered
    (srv : Server) (gameID : string) (session : GameSession) (now : Z) :
  getSession srv gameID = Some session →
  (∀ id action r srv',
     gameHandler id action srv = Some (r, srv') →
     getSession srv' gameID = Some session)
  ∧ (∀ unixNano t rnd id session' srv',
       createGame unixNano t rnd srv = Some (id, session', srv') →
       id ≠ gameID → getSession srv' gameID = Some session)
  ∧ (Since now (created session) ≤ 30 * Minute →
     ∀ srv', cleanupOldGames now srv = Some srv' →
             getSession srv' gameID = Some session)
  ∧ ((∀ id s, getSession srv id = Some s → Since now (created s) ≤ 30 * Minute) →
     cleanupOldGames now srv = Some srv).
Proof.
  intros Hs. split_and!.
  - intros id action r srv' Hh. unfold getSession.
    by rewrite (gameHandler_games _ _ _ _ _ Hh).
  - intros unixNano t rnd id session' srv' Hc Hne. unfold getSession.
    by rewrite (createGame_games _ _ _ _ _ _ _ Hc), lookup_insert_ne.
  - intros _ srv' Hpass. by rewrite (cleanupOldGames_Some _ _ _ Hpass).
  - apply cleanupOldGames_young.
Qed.

Lemma stand_leaves_session_registered_witness :
  let srv := mkServer {["game-1" := mkGameSession 0 0]}
               {[0%nat := mkGameState [8; 6] [12; 4; 3; 5] [0; 1] false true
                            "You lose!"]} 1 in
  cleanupOldGames (30 * Minute) srv = Some srv
  ∧ getSession srv "game-1" = Some (mkGameSession 0 0).
Proof.
  intros srv.
  assert (Hs : getSession srv "game-1" = Some (mkGameSession 0 0))
    by (by vm_compute).
  destruct (stand_leaves_session_registered srv "game-1" (mkGameSession 0 0)
              (30 * Minute) Hs) as (_ & _ & _ & Hpass).
  split; [|exact Hs]. apply Hpass.
  intros id s Hid. unfold getSession, srv in Hid. simpl in Hid.
  apply lookup_singleton_Some in Hid as [_ <-]. by vm_compute.
Defined.

(** * Further properties of the code *)

(** ** The hand evaluator *)

Lemma score_range_Permutation hand hand' :
  hand ≡ₚ hand' →
  ∀ total aces, score_range hand total aces = score_range hand' total aces.
Proof.
  induction 1 as [|c hand hand' _ IH|c1 c2 hand|hand1 hand2 hand3 _ IH1 _ IH2];
    intros total aces; simpl.
  - done.
  - destruct (card_score c); simpl; [apply IH | done].
  - destruct (card_score c1) as [s1|], (card_score c2) as [s2|]; simpl; try done.
    f_equal; [lia | by repeat case_bool_decide].
  - by rewrite IH1, IH2.
Qed.

(** X1.  [score] and [isBlackjack] do not depend on the order of the cards
    of the hand, panics included. *)
Theorem score_order_independent (hand hand' : list card) :
  hand ≡ₚ hand' →
  score hand = score hand' ∧ isBlackjack hand = isBlackjack hand'.
Proof.
  intros Hperm.
  assert (Hs : score hand = score hand').
  { unfold score. by rewrite (score_range_Permutation _ _ Hperm). }
  split; [done|]. unfold isBlackjack, len.
  by rewrite Hs, (Permutation_length Hperm).
Qed.

Lemma score_order_independent_witness :
  score [12; 8; 25] = score [8; 25; 12].
Proof.
  apply (score_order_independent [12; 8; 25] [8; 25; 12]).
  rewrite (Permutation_cons_append [8; 25] 12). done.
Defined.



Lemma card_score_None c :
  card_score c = None ↔ c < 0 ∧ Z.rem c 13 ≠ 0.
Proof.
  unfold card_score, index. change (len scores) with 13.
  case_bool_decide as Hr.
  - assert (Z.to_nat (Z.rem c 13) < length scores)%nat as Hlt.
    { simpl. Z.to_euclidean_division_equations; lia. }
    destruct (lookup_lt_is_Some_2 _ _ Hlt) as [s ->].
    split; [done|]. intros [Hc Hne]. Z.to_euclidean_division_equations; lia.
  - split; [|done]. intros _. Z.to_euclidean_division_equations; lia.
Qed.

Lemma score_range_None hand total aces :
  score_range hand total aces = None ↔ ∃ c, c ∈ hand ∧ card_score c = None.
Proof.
  revert total aces. induction hand as [|c hand IH]; intros total aces; simpl.
  - split; [done|]. intros (c & Hc & _). by apply elem_of_nil in Hc.
  - destruct (card_score c) as [s|] eqn:Hs; simpl.
    + rewrite IH. split.
      * intros (c' & Hc' & Hn). exists c'. split; [by right | done].
      * intros (c' & Hc' & Hn). apply elem_of_cons in Hc' as [-> | Hc'];
          [congruence | by exists c'].
    + split; [|done]. intros _. exists c. split; [by left | done].
Qed.

(** X3.  [score] panics exactly on the hands that hold a negative card that
    is not a multiple of thirteen: the remainder Go computes for it is
    negative, and it indexes the table of scores.  [card.score] is defined on
    every other value, the cards 0 to 51 among them. *)
Theorem score_panics_iff (hand : list card) :
  score hand = None ↔ ∃ c, c ∈ hand ∧ c < 0 ∧ Z.rem c 13 ≠ 0.
Proof.
  unfold score.
  destruct (score_range hand 0 0) as [[total aces]|] eqn:Hr; simpl.
  - split; [done|]. intros (c & Hc & Hbad).
    assert (score_range hand 0 0 = None) as Hn; [|congruence].
    apply score_range_None. exists c. split; [done|]. by apply card_score_None.
  - split; [|done]. intros _. apply score_range_None in Hr as (c & Hc & Hn).
    exists c. split; [done|]. by apply card_score_None.
Qed.

Lemma two_cards_blackjack :
  Forall (λ c1, Forall (λ c2,
    isBlackjack [c1; c2]
    = Some (bool_decide (card_value c1 = 11 ∧ card_value c2 = 10
                         ∨ card_value c1 = 10 ∧ card_value c2 = 11))) cards) cards.
Proof. apply (bool_decide_unpack _). by vm_compute. Qed.

Lemma isBlackjack_pair c1 c2 :
  valid_card c1 → valid_card c2 →
  isBlackjack [c1; c2]
  = Some (bool_decide (card_value c1 = 11 ∧ card_value c2 = 10
                       ∨ card_value c1 = 10 ∧ card_value c2 = 11)).
Proof.
  intros H1 H2.
  apply (forall_cards _ two_cards_blackjack) in H1.
  by apply (forall_cards _ H1).
Qed.

(** X4.  A hand that does not have exactly two cards is never a blackjack,
    and [isBlackjack] does not even score it, so it cannot panic; a hand of
    two cards is a blackjack exactly when one card is an Ace and the other
    counts ten. *)
Theorem isBlackjack_two_cards :
  (∀ hand, length hand ≠ 2%nat → isBlackjack hand = Some false)
  ∧ ∀ c1 c2, valid_card c1 → valid_card c2 →
      isBlackjack [c1; c2]
      = Some (bool_decide (card_value c1 = 11 ∧ card_value c2 = 10
                           ∨ card_value c1 = 10 ∧ card_value c2 = 11)).
Proof.
  split.
  - intros hand Hlen. unfold isBlackjack, len.
    rewrite bool_decide_eq_false_2; [done | lia].
  - apply isBlackjack_pair.
Qed.

Lemma isBlackjack_two_cards_witness :
  isBlackjack [12; 24] = Some true.
Proof.
  destruct isBlackjack_two_cards as [_ Htwo].
  etrans; [apply (Htwo 12 24); unfold valid_card; lia | by vm_compute].
Defined.

(** X5.  On a hand of cards [hasAce] says whether the hand holds an Ace.  It
    returns at the first Ace it meets: the cards behind that Ace are not
    looked at, whatever they are. *)
Theorem hasAce_finds_ace :
  (∀ hand, Forall valid_card hand →
     hasAce hand = Some (bool_decide (0 < count_aces hand)%nat))
  ∧ ∀ before c after,
      Forall valid_card before → card_score c = Some 11 →
      hasAce (before ++ c :: after) = Some true.
Proof.
  split.
  - induction 1 as [|c hand Hc _ IH]; [done|].
    simpl. rewrite count_aces_cons, (is_ace_value c Hc).
    destruct (card_score_valid c Hc) as [-> _]. simpl.
    by destruct (bool_decide (card_value c = 11)); simpl.
  - intros before c after Hv Hc.
    induction Hv as [|c' before Hc' _ IH]; simpl.
    + by rewrite Hc.
    + destruct (card_score_valid c' Hc') as [-> _]. simpl.
      by case_bool_decide.
Qed.

Lemma hasAce_finds_ace_witness :
  hasAce [3; 12; -1] = Some true.
Proof.
  destruct hasAce_finds_ace as [_ Hfirst].
  apply (Hfirst [3] 12 [-1]); [|by vm_compute].
  repeat constructor; unfold valid_card; lia.
Defined.

(** ** The actor over a whole game *)

(** What "hit" does to a state it accepts. *)
Lemma hit_cases s s' :
  hit s = Some s' →
  (s' = s ∧ (Stand s = true ∨ Bust s = true))
  ∨ (Stand s = false ∧ Bust s = false
     ∧ ∃ c sc bj,
         Deck s = c :: Deck s'
         ∧ PlayerHand s' = PlayerHand s ++ [c]
         ∧ DealerHand s' = DealerHand s
         ∧ score (PlayerHand s') = Some sc
         ∧ isBlackjack (PlayerHand s') = Some bj
         ∧ Bust s' = bool_decide (sc > 21)
         ∧ Stand s' = bj
         ∧ Message s' = if bj then "Blackjack! You win!"
                        else if bool_decide (sc > 21) then "Bust!"
                        else Message s).
Proof.
  unfold hit.
  destruct (Stand s) eqn:Hstand; [intros [= <-]; left; by eauto|].
  destruct (Bust s) eqn:Hbust; [intros [= <-]; left; by eauto|]. simpl.
  destruct (Deck s) as [|c deck] eqn:Hdeck; [done|]. unfold index. simpl.
  destruct (score (PlayerHand s ++ [c])) as [sc|] eqn:Hsc; simpl; [|done].
  destruct (isBlackjack (PlayerHand s ++ [c])) as [bj|] eqn:Hbj;
    [|by case_bool_decide].
  intros Hs'. right. split; [done|]. split; [done|]. exists c, sc, bj.
  case_bool_decide; destruct bj; simpl in Hs'; injection Hs' as <-; simpl;
    by split_and!.
Qed.

(** What "stand" does to a state it accepts. *)
Lemma stand_cases s s' :
  stand s = Some s' →
  (s' = s ∧ (Stand s = true ∨ Bust s = true))
  ∨ (Stand s = false ∧ Bust s = false
     ∧ ∃ drawn p d,
         DealerHand s' = DealerHand s ++ drawn
         ∧ Deck s = drawn ++ Deck s'
         ∧ PlayerHand s' = PlayerHand s
         ∧ Stand s' = true ∧ Bust s' = false
         ∧ score (PlayerHand s) = Some p
         ∧ score (DealerHand s') = Some d
         ∧ dealer_draws d (DealerHand s') = Some false
         ∧ Message s' = outcome p d).
Proof.
  unfold stand.
  destruct (Stand s) eqn:Hstand; [intros [= <-]; left; by eauto|].
  destruct (Bust s) eqn:Hbust; [intros [= <-]; left; by eauto|]. simpl.
  destruct (score (DealerHand s)) as [ds|] eqn:Hds; simpl; [|done].
  destruct (dealer_loop (Deck s) (DealerHand s) ds) as [[[hand deck] d]|] eqn:Hloop;
    simpl; [|done].
  destruct (score (PlayerHand s)) as [p|] eqn:Hp; simpl; [|done].
  intros [= <-]. simpl. right. split; [done|]. split; [done|].
  destruct (dealer_loop_result _ _ _ _ _ _ Hds Hloop) as (Hd & Hstop & drawn & -> & ->).
  exists drawn, p, d. by split_and!.
Qed.

Lemma gameLoop_terminal commands s :
  Stand s = true ∨ Bust s = true →
  gameLoop commands s = Some (s, replicate (length commands) s).
Proof.
  intros Hterm. induction commands as [|action commands IH]; simpl; [done|].
  unfold gameLoop_step. rewrite (transition_terminal action s Hterm). simpl.
  by rewrite IH.
Qed.

(** X6.  A finished game stays as it is: once [Stand] or [Bust] is set,
    every sequence of commands, whatever their actions, leaves the state
    unchanged and answers each command with that same state. *)
Theorem finished_game_is_absorbing (commands : list string) (s : GameState) :
  Stand s = true ∨ Bust s = true →
  gameLoop commands s = Some (s, replicate (length commands) s).
Proof. apply gameLoop_terminal. Qed.

Lemma finished_game_is_absorbing_witness :
  let s := mkGameState [8; 6] [12; 4; 3; 5] [0; 1] false true "You lose!" in
  gameLoop ["hit"; "stand"; "hit"] s = Some (s, [s; s; s]).
Proof.
  intros s. apply (finished_game_is_absorbing ["hit"; "stand"; "hit"] s).
  by left.
Defined.

Lemma transition_cases action s s' :
  transition action s = Some s' →
  s' = s
  ∨ (Stand s = false ∧ Bust s = false
     ∧ ∃ c, Deck s = c :: Deck s' ∧ PlayerHand s' = PlayerHand s ++ [c]
            ∧ DealerHand s' = DealerHand s)
  ∨ (Stand s' = true
     ∧ ∃ drawn, DealerHand s' = DealerHand s ++ drawn
                ∧ Deck s = drawn ++ Deck s' ∧ PlayerHand s' = PlayerHand s).
Proof.
  unfold transition. repeat case_bool_decide.
  - intros Hh.
    destruct (hit_cases _ _ Hh) as [[-> _]|(Hs & Hb & c & sc & bj & Hc)];
      [by left|].
    right. left. split; [done|]. split; [done|]. exists c.
    by destruct Hc as (? & ? & ? & _).
  - intros Hst.
    destruct (stand_cases _ _ Hst) as [[-> _]|(Hs & Hb & drawn & p & d & Hc)];
      [by left|].
    right. right. destruct Hc as (? & ? & ? & ? & _). split; [done|].
    by exists drawn.
  - intros [= <-]. by left.
Qed.

(** X7.  Over any sequence of commands the hands only grow and the deck is
    used from the front: the player's hand is extended by the first cards
    the deck had, the dealer's hand by the cards that followed them, and the
    deck that is left is the rest. *)
Theorem cards_are_drawn_in_deck_order
    (commands : list string) (s s' : GameState) (replies : list GameState) :
  gameLoop commands s = Some (s', replies) →
  ∃ player_draws dealer_draws,
    PlayerHand s' = PlayerHand s ++ player_draws
    ∧ DealerHand s' = DealerHand s ++ dealer_draws
    ∧ Deck s = player_draws ++ dealer_draws ++ Deck s'.
Proof.
  revert s replies. induction commands as [|action commands IH];
    intros s replies; simpl.
  - intros [= <- _]. exists [], []. by rewrite !app_nil_r.
  - unfold gameLoop_step.
    destruct (transition action s) as [s1|] eqn:Htr; simpl; [|done].
    destruct (gameLoop commands s1) as [[s2 replies']|] eqn:Hrest; simpl; [|done].
    intros [= <- _].
    destruct (transition_cases _ _ _ Htr)
      as [->|[(_ & _ & c & Hdeck & Hp & Hd)|(Hstand & drawn & Hd & Hdeck & Hp)]].
    + by apply (IH _ _ Hrest).
    + destruct (IH _ _ Hrest) as (dp & dd & Hp2 & Hd2 & Hdeck2).
      exists (c :: dp), dd. rewrite Hp2, Hd2, Hp, Hd, Hdeck, Hdeck2.
      by rewrite <- app_assoc.
    + rewrite (gameLoop_terminal commands s1) in Hrest by (by left).
      injection Hrest as <- _.
      exists [], drawn. by rewrite Hd, Hdeck, Hp, app_nil_r.
Qed.

Lemma cards_are_drawn_in_deck_order_witness :
  let s := mkGameState [8] [12] [6; 4; 3; 5; 0; 1] false false "" in
  ∃ s' replies player_draws dealer_draws,
    gameLoop ["hit"; "stand"] s = Some (s', replies)
    ∧ PlayerHand s' = PlayerHand s ++ player_draws
    ∧ Deck s = player_draws ++ dealer_draws ++ Deck s'.
Proof.
  intros s.
  pose (s1 := mkGameState [8; 6] [12] [4; 3; 5; 0; 1] false false "").
  pose (s2 := mkGameState [8; 6] [12; 4; 3; 5] [0; 1] false true "You lose!").
  assert (Hrun : gameLoop ["hit"; "stand"] s = Some (s2, [s1; s2]))
    by (by vm_compute).
  destruct (cards_are_drawn_in_deck_order _ _ _ _ Hrun) as (dp & dd & Hp & _ & Hk).
  exists s2, [s1; s2], dp, dd. split; [exact Hrun|]. split; [exact Hp | exact Hk].
Defined.

Lemma isBlackjack_true hand : isBlackjack hand = Some true → score hand = Some 21.
Proof.
  unfold isBlackjack. case_bool_decide; [|done].
  destruct (score hand) as [s|]; simpl; [|done].
  intros [= Hs]. apply bool_decide_eq_true_1 in Hs. by subst.
Qed.

Lemma outcome_nonempty p d : outcome p d ≠ "".
Proof. unfold outcome. by repeat case_bool_decide. Qed.

Lemma transition_flags action s s' :
  session_inv s → flags_ok s → transition action s = Some s' → flags_ok s'.
Proof.
  intros [_ Hrun] Hflags. unfold transition. repeat case_bool_decide.
  - intros Hh.
    destruct (hit_cases _ _ Hh)
      as [[-> _]|(Hs & Hb & c & sc & bj & _ & _ & _ & Hsc & Hbj & HB & HS & HM)];
      [done|].
    destruct Hflags as (p & _ & _ & _ & Hmsg & _).
    assert (Message s = "") as Hm by (by apply Hmsg).
    assert (bj = true → sc = 21) as Hbj21.
    { intros ->. apply isBlackjack_true in Hbj. congruence. }
    exists sc. rewrite HB, HS, HM, Hm. split; [done|]. split; [done|].
    destruct bj; [rewrite Hbj21 by done|]; case_bool_decide; split_and!;
      try done; try lia; try (split; [done | by intros []]);
      try (intros _; by eexists).
  - intros Hst.
    destruct (stand_cases _ _ Hst)
      as [[-> _]|(Hs & Hb & drawn & p & d & _ & _ & HP & HS & HB & Hp & _ & _ & HM)];
      [done|].
    destruct (Hrun Hs Hb) as (_ & p' & Hp' & Hle).
    assert (p' = p) as -> by congruence.
    exists p. rewrite HP, HS, HB, HM. split; [done|].
    split; [by rewrite bool_decide_eq_false_2 by lia|].
    split_and!; try done.
    + split; [by intros ?%outcome_nonempty | by intros []].
    + intros _. rewrite outcome_spec. by eexists.
  - by intros [= <-].
Qed.

Lemma gameLoop_flags commands s s' replies :
  session_inv s → flags_ok s →
  gameLoop commands s = Some (s', replies) →
  flags_ok s' ∧ Forall flags_ok replies.
Proof.
  revert s replies. induction commands as [|action commands IH];
    intros s replies Hinv Hflags; simpl.
  - by intros [= <- <-].
  - unfold gameLoop_step.
    destruct (transition_inv action s Hinv) as (s1 & Htr & Hinv1).
    rewrite Htr. simpl.
    pose proof (transition_flags _ _ _ Hinv Hflags Htr) as Hflags1.
    destruct (gameLoop commands s1) as [[s2 replies']|] eqn:Hrest; simpl; [|done].
    intros [= <- <-]. destruct (IH _ _ Hinv1 Hflags1 Hrest) as [? ?].
    split; [done|]. by constructor.
Qed.

(** X8.  In every state of a game started by [createGame], and in every
    reply, the flags tell the score and the message tells the flags: [Bust]
    is set exactly when the player's hand scores above 21, never together
    with [Stand]; the message is empty exactly while the game runs, it is
    "Bust!" when [Bust] is set, and one of the outcome messages when [Stand]
    is set. *)
Theorem flags_follow_the_score (rnd : nat → nat) (commands : list string) :
  (∀ n, (rnd n ≤ n)%nat) →
  ∃ s0 s replies,
    initialState rnd = Some s0
    ∧ gameLoop commands s0 = Some (s, replies)
    ∧ Forall (λ r,
        ∃ p, score (PlayerHand r) = Some p
             ∧ Bust r = bool_decide (p > 21)
             ∧ (Stand r = true → Bust r = false)
             ∧ (Message r = "" ↔ Stand r = false ∧ Bust r = false)
             ∧ (Bust r = true → Message r = "Bust!")
             ∧ (Stand r = true → is_Some (outcome_of_message (Message r))))
        (s :: replies).
Proof.
  intros Hrnd.
  destruct (initialState_inv rnd Hrnd) as (s0 & Hs0 & Hinv0).
  destruct (gameLoop_inv commands s0 Hinv0) as (s & replies & Hrun & _).
  exists s0, s, replies. split; [done|]. split; [done|].
  assert (flags_ok s0) as Hflags0.
  { destruct (initialState_deal rnd Hrnd) as (c0 & c1 & deck & Hinit & _ & _).
    rewrite Hinit in Hs0. injection Hs0 as <-.
    destruct Hinv0 as [_ Hrun0].
    destruct (Hrun0 eq_refl eq_refl) as (_ & p & Hp & Hle).
    exists p. simpl in *. split; [done|].
    split; [by rewrite bool_decide_eq_false_2 by lia|]. by split_and!. }
  destruct (gameLoop_flags _ _ _ _ Hinv0 Hflags0 Hrun) as [Hs Hall].
  by constructor.
Qed.

Lemma flags_follow_the_score_witness :
  ∃ s0 s replies,
    initialState (λ _, 0%nat) = Some s0
    ∧ gameLoop ["hit"; "hit"; "hit"; "stand"] s0 = Some (s, replies).
Proof.
  destruct (flags_follow_the_score (λ _, 0%nat) ["hit"; "hit"; "hit"; "stand"])
    as (s0 & s & replies & H0 & Hrun & _); [lia|].
  exists s0, s, replies. split; [exact H0 | exact Hrun].
Defined.

(** ** The dealer *)

Lemma hand_total_app hand c :
  hand_total (hand ++ [c]) = hand_total hand + card_value c.
Proof. induction hand as [|c' hand IH]; simpl; [lia | rewrite IH; lia]. Qed.

Lemma count_aces_app hand c :
  count_aces (hand ++ [c]) = (count_aces hand + if is_ace c then 1 else 0)%nat.
Proof.
  induction hand as [|c' hand IH].
  - simpl. rewrite count_aces_cons. unfold count_aces. simpl. lia.
  - change ((c' :: hand) ++ [c]) with (c' :: (hand ++ [c])).
    rewrite !count_aces_cons, IH. lia.
Qed.

(** One more card raises the score by its value at most, and an Ace drawn
    on eleven or more counts one. *)
Lemma score_draw hand c ds :
  Forall valid_card hand → valid_card c → score hand = Some ds →
  ∃ s, score (hand ++ [c]) = Some s
       ∧ s ≤ ds + card_value c
       ∧ (card_value c = 11 → 10 < ds → s ≤ ds + 1).
Proof.
  intros Hv Hc. rewrite (score_valid _ Hv). intros [= <-].
  assert (Hv' : Forall valid_card (hand ++ [c])).
  { apply Forall_app. split; [done | by apply Forall_singleton]. }
  rewrite (score_valid _ Hv'). eexists. split; [done|].
  rewrite hand_total_app, count_aces_app, (is_ace_value c Hc).
  destruct (demote_spec (count_aces hand) (hand_total hand))
    as (k & Hk & -> & Hstop & Hmin).
  destruct (demote_spec
              (count_aces hand + (if bool_decide (card_value c = 11) then 1 else 0))
              (hand_total hand + card_value c))
    as (k' & Hk' & -> & Hstop' & Hmin').
  destruct (card_score_valid c Hc) as [_ Hr].
  assert (k ≤ k')%nat as Hkk.
  { destruct (decide (k' < k)%nat) as [Hlt|]; [|lia].
    specialize (Hmin k' Hlt). destruct Hstop' as [?|?]; lia. }
  split; [lia|]. intros Hace Hds.
  rewrite bool_decide_eq_true_2 in Hk', Hstop' by done.
  destruct (decide (k' = k)) as [->|]; [|lia].
  destruct Hstop' as [?|?]; lia.
Qed.

(** Before each card the dealer drew, the loop condition held. *)
Lemma dealer_loop_drawn deck hand ds hand' deck' ds' :
  score hand = Some ds →
  dealer_loop deck hand ds = Some (hand', deck', ds') →
  ∀ before c after,
    hand' = hand ++ before ++ c :: after →
    ∃ s, score (hand ++ before) = Some s
         ∧ dealer_draws s (hand ++ before) = Some true.
Proof.
  revert hand ds. induction deck as [|c0 deck IH]; intros hand ds Hs; simpl.
  - destruct (dealer_draws ds hand) as [[]|] eqn:Hd; simpl; [done | | done].
    intros [= <- _ _] before c after Heq.
    apply (f_equal length) in Heq. rewrite !length_app in Heq. simpl in Heq. lia.
  - destruct (dealer_draws ds hand) as [[]|] eqn:Hd; simpl; [ | | done].
    + destruct (score (hand ++ [c0])) as [s0|] eqn:Hs0; simpl; [|done].
      intros Hloop before c after Heq.
      destruct before as [|b before].
      * exists ds. by rewrite app_nil_r.
      * destruct (dealer_loop_result _ _ _ _ _ _ Hs0 Hloop)
          as (_ & _ & drawn & Hh & _).
        rewrite Hh, <- app_assoc in Heq. apply app_inv_head in Heq.
        injection Heq as <- Hd'.
        destruct (IH _ _ Hs0 Hloop before c after) as (s & Hsb & Hdb).
        { by rewrite Hh, Hd'. }
        exists s. by rewrite cons_middle, app_assoc.
    + intros [= <- _ _] before c after Heq.
      apply (f_equal length) in Heq. rewrite !length_app in Heq. simpl in Heq. lia.
Qed.

Lemma dealer_draws_true ds hand :
  dealer_draws ds hand = Some true →
  ds < 17 ∨ ds = 17 ∧ hasAce hand = Some true.
Proof. unfold dealer_draws. repeat case_bool_decide; naive_solver. Qed.

Lemma dealer_draws_false ds hand :
  dealer_draws ds hand = Some false →
  17 ≤ ds ∧ (ds = 17 → hasAce hand = Some false).
Proof. unfold dealer_draws. repeat case_bool_decide; naive_solver lia. Qed.

(** X9.  When "stand" on a running game of cards returns, the dealer holds
    its cards and some it drew; before each card drawn the dealer's score
    was below 17, or was 17 with an Ace in the hand; the final score is 17
    or more, with no Ace in the hand if it is 17; and a dealer who drew ends
    on 27 at most. *)
Theorem dealer_policy (s s' : GameState) :
  Stand s = false → Bust s = false →
  Forall valid_card (DealerHand s ++ Deck s) →
  transition "stand" s = Some s' →
  ∃ drawn d,
    DealerHand s' = DealerHand s ++ drawn
    ∧ score (DealerHand s') = Some d
    ∧ 17 ≤ d ∧ (d = 17 → hasAce (DealerHand s') = Some false)
    ∧ (drawn ≠ [] → d ≤ 27)
    ∧ ∀ before c after,
        drawn = before ++ c :: after →
        ∃ ds, score (DealerHand s ++ before) = Some ds
              ∧ (ds < 17 ∨ ds = 17 ∧ hasAce (DealerHand s ++ before) = Some true).
Proof.
  intros Hstand Hbust Hv. unfold transition. simpl. unfold stand.
  rewrite Hstand, Hbust. simpl.
  destruct (score (DealerHand s)) as [ds|] eqn:Hds; simpl; [|done].
  destruct (dealer_loop (Deck s) (DealerHand s) ds) as [[[hand deck] d]|] eqn:Hloop;
    simpl; [|done].
  destruct (score (PlayerHand s)) as [p|]; simpl; [|done].
  intros [= <-]. simpl.
  destruct (dealer_loop_result _ _ _ _ _ _ Hds Hloop) as (Hd & Hstop & drawn & -> & Hdeck).
  pose proof (dealer_loop_drawn _ _ _ _ _ _ Hds Hloop) as Hdrawn.
  apply dealer_draws_false in Hstop as [H17 Hace].
  assert (Hbefore : ∀ before c after, drawn = before ++ c :: after →
            ∃ ds0, score (DealerHand s ++ before) = Some ds0
                   ∧ (ds0 < 17 ∨ ds0 = 17 ∧ hasAce (DealerHand s ++ before) = Some true)).
  { intros before c after ->.
    destruct (Hdrawn before c after eq_refl) as (s0 & Hs0 & Hd0).
    exists s0. split; [done|]. by apply dealer_draws_true. }
  exists drawn, d. split_and!; [done | done | done | done | | done].
  intros Hne.
  destruct (exists_last Hne) as (before & c & ->).
  destruct (Hbefore before c [] eq_refl) as (ds0 & Hs0 & Hcond).
  rewrite Hdeck, app_assoc in Hv. apply Forall_app in Hv as [Hv _].
  rewrite app_assoc in Hv. apply Forall_app in Hv as [Hvb Hvc].
  apply Forall_inv in Hvc.
  destruct (score_draw _ c _ Hvb Hvc Hs0) as (s1 & Hs1 & Hle & Hace1).
  rewrite app_assoc in Hd. assert (s1 = d) as -> by congruence.
  destruct (card_score_valid c Hvc) as [_ Hr].
  destruct (decide (card_value c = 11)) as [H11|]; [|lia].
  destruct (decide (10 < ds0)); [specialize (Hace1 H11); lia | lia].
Qed.

Lemma dealer_policy_witness :
  let s := mkGameState [8; 6] [12] [4; 21; 22; 0; 1] false false "" in
  ∃ s' drawn d,
    transition "stand" s = Some s'
    ∧ DealerHand s' = DealerHand s ++ drawn
    ∧ score (DealerHand s') = Some d ∧ 17 ≤ d.
Proof.
  intros s.
  pose (s' := mkGameState [8; 6] [12; 4; 21; 22] [0; 1] false true
                "Dealer busts! You win!").
  assert (Hst : transition "stand" s = Some s') by (by vm_compute).
  destruct (dealer_policy s s') as (drawn & d & Hd & Hs & H17 & _);
    [done | done | | exact Hst |].
  { repeat constructor; unfold valid_card; lia. }
  exists s', drawn, d. split; [exact Hst|]. split; [exact Hd|].
  split; [exact Hs | exact H17].
Defined.

(** X10.  The switch of the stand case never yields "Blackjack! You win!":
    a player on 21 who is not above the dealer and not level with it faces a
    dealer above 21, which the first case has taken.  The other four
    messages are decided by the scores as follows. *)
Theorem outcome_cases (playerScore dealerScore : Z) :
  outcome playerScore dealerScore ≠ "Blackjack! You win!"
  ∧ (outcome playerScore dealerScore = "Dealer busts! You win!" ↔ dealerScore > 21)
  ∧ (outcome playerScore dealerScore = "You win!"
     ↔ dealerScore ≤ 21 ∧ playerScore > dealerScore)
  ∧ (outcome playerScore dealerScore = "Push!"
     ↔ dealerScore ≤ 21 ∧ playerScore = dealerScore)
  ∧ (outcome playerScore dealerScore = "You lose!"
     ↔ playerScore < dealerScore ≤ 21).
Proof.
  unfold outcome.
  repeat case_bool_decide; (split; [done || (intros _; lia)|]); split_and!;
    split; intros; try done; lia.
Qed.

Lemma hit_second_card (c0 c : card) (dealer deck : list card) (msg : string) :
  valid_card c0 → valid_card c →
  let bj := bool_decide (card_value c0 = 11 ∧ card_value c = 10
                         ∨ card_value c0 = 10 ∧ card_value c = 11) in
  transition "hit" (mkGameState [c0] dealer (c :: deck) false false msg)
  = Some (mkGameState [c0; c] dealer deck false bj
            (if bj then "Blackjack! You win!" else msg)).
Proof.
  intros H0 Hc bj. unfold transition. simpl. unfold hit, index. simpl.
  pose proof (isBlackjack_pair c0 c H0 Hc) as Hbj. fold bj in Hbj.
  assert (∃ sc, score [c0; c] = Some sc ∧ sc ≤ 21) as (sc & -> & Hsc).
  { assert (Hall : Forall (λ c1, Forall (λ c2,
              is_Some (score [c1; c2]) ∧ default 0 (score [c1; c2]) ≤ 21)
              cards) cards).
    { apply (bool_decide_unpack _). by vm_compute. }
    apply (forall_cards _ Hall) in H0.
    destruct (forall_cards _ H0 c Hc) as [[sc Hs] Hle].
    exists sc. rewrite Hs in Hle. by split. }
  simpl. rewrite bool_decide_eq_false_2 by lia.
  change (isBlackjack [c0; c] = Some bj) in Hbj. rewrite Hbj. simpl.
  by destruct bj.
Qed.

(** X11.  The first card a player is dealt on top of the one from
    [createGame] never busts the hand.  It ends the game at once exactly
    when the two cards are an Ace and a card that counts ten: [Stand] is set
    with the message "Blackjack! You win!", and the dealer draws nothing. *)
Theorem first_hit (c0 c : card) (dealer deck : list card) (msg : string) :
  valid_card c0 → valid_card c →
  let bj := bool_decide (card_value c0 = 11 ∧ card_value c = 10
                         ∨ card_value c0 = 10 ∧ card_value c = 11) in
  transition "hit" (mkGameState [c0] dealer (c :: deck) false false msg)
  = Some (mkGameState [c0; c] dealer deck false bj
            (if bj then "Blackjack! You win!" else msg)).
Proof. intros H0 Hc. by apply hit_second_card. Qed.

Lemma first_hit_witness :
  transition "hit" (mkGameState [12] [3] [24; 0; 1] false false "")
  = Some (mkGameState [12; 24] [3] [0; 1] false true "Blackjack! You win!").
Proof.
  etrans; [apply (first_hit 12 24 [3] [0; 1] ""); unfold valid_card; lia|].
  by vm_compute.
Defined.

(** ** Identifiers *)

Lemma digits_string_of_uint d : digits (NilEmpty.string_of_uint d) = true.
Proof. induction d; simpl; try done; by rewrite IHd. Qed.

Lemma string_of_uint_nonempty d : d ≠ Decimal.Nil → NilEmpty.string_of_uint d ≠ "".
Proof. by destruct d. Qed.

Lemma string_of_uint_digits u :
  u ≠ Decimal.Nil →
  NilZero.string_of_uint u ≠ "" ∧ digits (NilZero.string_of_uint u) = true.
Proof.
  intros Hu.
  destruct u; [done | ..]; (split; [done|]); simpl;
    by rewrite digits_string_of_uint.
Qed.

Lemma append_inv_head (p a b : string) : p +:+ a = p +:+ b → a = b.
Proof. induction p as [|c p IH]; simpl; [done|]. intros [= Heq]. by apply IH. Qed.

Lemma to_int_not_nil n :
  Z.to_int n ≠ Decimal.Pos Decimal.Nil ∧ Z.to_int n ≠ Decimal.Neg Decimal.Nil.
Proof.
  destruct n as [|p|p]; simpl; split; try done;
    intros [= Hp]; by apply DecimalPos.Unsigned.to_uint_nonnil in Hp.
Qed.

Lemma Sprintf_game_valid n :
  gameIDRe_MatchString (Sprintf_game n) = bool_decide (0 ≤ n).
Proof.
  unfold Sprintf_game, gameIDRe_MatchString. simpl.
  destruct n as [|p|p]; simpl; [done | | done].
  change ("" +:+ ?x) with x.
  destruct (string_of_uint_digits (Pos.to_uint p)) as [Hne ->];
    [apply DecimalPos.Unsigned.to_uint_nonnil|].
  by rewrite bool_decide_eq_false_2.
Qed.

Lemma Sprintf_game_inj n m : Sprintf_game n = Sprintf_game m → n = m.
Proof.
  unfold Sprintf_game. intros Heq%append_inv_head.
  apply (f_equal NilZero.int_of_string) in Heq.
  destruct (to_int_not_nil n) as [? ?], (to_int_not_nil m) as [? ?].
  rewrite !NilZero.isi in Heq by done.
  injection Heq as Heq. by apply DecimalZ.to_int_inj.
Qed.

(** X12.  The identifier [createGame] prints passes the validation of
    [gameHandler] exactly when the clock reading it is printed from is not
    negative, and distinct readings give distinct identifiers. *)
Theorem game_identifiers (n m : Z) :
  gameIDRe_MatchString (Sprintf_game n) = bool_decide (0 ≤ n)
  ∧ (Sprintf_game n = Sprintf_game m → n = m).
Proof.
  split.
  - apply Sprintf_game_valid.
  - apply Sprintf_game_inj.
Qed.

Lemma game_identifiers_witness : gameIDRe_MatchString (Sprintf_game 42) = true.
Proof. destruct (game_identifiers 42 42) as [-> _]. by vm_compute. Defined.

(** ** The process between requests *)

Lemma server_ok_empty : server_ok (mkServer ∅ ∅ 0).
Proof.
  split_and!; simpl.
  - intros id session. by rewrite lookup_empty.
  - intros id1 id2 s1 s2. by rewrite lookup_empty.
  - intros ch [state Hs]. by rewrite lookup_empty in Hs.
  - intros ch state. by rewrite lookup_empty.
Qed.

Lemma createGame_ok unixNano now rnd srv :
  (∀ n, (rnd n ≤ n)%nat) → server_ok srv →
  ∃ initial srv',
    createGame unixNano now rnd srv
    = Some (Sprintf_game unixNano, mkGameSession (chans srv) now, srv')
    ∧ initialState rnd = Some initial
    ∧ games srv' = <[Sprintf_game unixNano := mkGameSession (chans srv) now]> (games srv)
    ∧ actors srv' = <[chans srv := initial]> (actors srv)
    ∧ chans srv' = S (chans srv)
    ∧ server_ok srv'.
Proof.
  intros Hrnd (Hlive & Hdist & Hfresh & Hinv).
  destruct (initialState_inv rnd Hrnd) as (initial & Hinit & Hinv0).
  unfold createGame. rewrite Hinit. simpl.
  eexists _, _. split_and!; [done .. |]. split_and!; simpl.
  - intros id session Hs. apply lookup_insert_is_Some'.
    apply lookup_insert_Some in Hs as [[_ <-]|[_ Hs]]; [by left|].
    right. by apply (Hlive id).
  - intros id1 id2 s1 s2 H1 H2 Hch.
    apply lookup_insert_Some in H1 as [[<- <-]|[Hne1 H1]];
      apply lookup_insert_Some in H2 as [[<- <-]|[Hne2 H2]]; [done | | |].
    + apply Hlive, Hfresh in H2. simpl in Hch. lia.
    + apply Hlive, Hfresh in H1. simpl in Hch. lia.
    + by apply (Hdist _ _ _ _ H1 H2).
  - intros ch Hch. apply lookup_insert_is_Some' in Hch as [->|Hch]; [lia|].
    apply Hfresh in Hch. lia.
  - intros ch state Hs.
    apply lookup_insert_Some in Hs as [[_ <-]|[_ Hs]]; [done|].
    by apply (Hinv ch).
Qed.

Lemma submit_ok session action srv :
  server_ok srv → is_Some (actors srv !! commands session) →
  ∃ state state' srv',
    submit session action srv = Some (state', srv')
    ∧ actors srv !! commands session = Some state
    ∧ transition action state = Some state'
    ∧ games srv' = games srv
    ∧ actors srv' = <[commands session := state']> (actors srv)
    ∧ chans srv' = chans srv
    ∧ server_ok srv'.
Proof.
  intros (Hlive & Hdist & Hfresh & Hinv) [state Hstate].
  destruct (transition_inv action state (Hinv _ _ Hstate)) as (state' & Htr & Hinv').
  unfold submit, gameLoop_step. rewrite Hstate. simpl. rewrite Htr. simpl.
  eexists _, _, _. split_and!; [done .. |]. split_and!; simpl.
  - intros id s Hs. apply lookup_insert_is_Some'. right. by apply (Hlive id).
  - done.
  - intros ch Hch. apply lookup_insert_is_Some' in Hch as [<-|Hch];
      apply Hfresh; [by eexists | done].
  - intros ch st Hs.
    apply lookup_insert_Some in Hs as [[_ <-]|[_ Hs]]; [done|].
    by apply (Hinv ch).
Qed.

Lemma gameHandler_ok gameID action srv :
  server_ok srv →
  ∃ r srv', gameHandler gameID action srv = Some (r, srv') ∧ server_ok srv'.
Proof.
  intros Hok. unfold gameHandler.
  destruct (gameIDRe_MatchString gameID); simpl; [|by eexists _, _].
  destruct (getSession srv gameID) as [session|] eqn:Hs; [|by eexists _, _].
  destruct (submit_ok session action srv Hok)
    as (state & state' & srv' & -> & _ & _ & _ & _ & _ & Hok').
  { destruct Hok as (Hlive & _). by apply (Hlive gameID). }
  simpl. by eexists _, _.
Qed.

Lemma newHandler_ok unixNano now rnd srv :
  (∀ n, (rnd n ≤ n)%nat) → server_ok srv →
  ∃ r srv', newHandler unixNano now rnd srv = Some (r, srv') ∧ server_ok srv'.
Proof.
  intros Hrnd Hok. unfold newHandler.
  destruct (createGame_ok unixNano now rnd srv Hrnd Hok)
    as (initial & srv1 & -> & _ & _ & Ha & _ & Hok1).
  simpl.
  destruct (submit_ok (mkGameSession (chans srv) now) "" srv1 Hok1)
    as (state & state' & srv' & -> & _ & _ & _ & _ & _ & Hok').
  { rewrite Ha. simpl. rewrite lookup_insert_eq. by eexists. }
  simpl. by eexists _, _.
Qed.

Lemma serve_ok req srv :
  request_ok req → server_ok srv →
  ∃ r srv', serve req srv = Some (r, srv') ∧ server_ok srv'.
Proof.
  destruct req as [|unixNano now rnd|game|game]; simpl; intros Hreq Hok.
  - by eexists _, _.
  - by apply newHandler_ok.
  - by apply gameHandler_ok.
  - by apply gameHandler_ok.
Qed.

(** X13.  Over any sequence of requests to the routes of [main], starting
    with no game, every request is answered: no handler panics, no command
    is sent on a closed channel and no card is drawn from an empty deck.
    Afterwards every registered session has an actor, and the state that
    actor holds has the 52 cards of a deck between its hands and its deck. *)
Theorem requests_are_always_answered (reqs : list Request) :
  Forall request_ok reqs →
  ∃ responses srv,
    serve_all reqs (mkServer ∅ ∅ 0) = Some (responses, srv)
    ∧ length responses = length reqs
    ∧ ∀ id session,
        getSession srv id = Some session →
        ∃ state, actors srv !! commands session = Some state
                 ∧ PlayerHand state ++ DealerHand state ++ Deck state ≡ₚ new_deck.
Proof.
  intros Hreqs.
  assert (Hgen : ∀ srv0, server_ok srv0 →
            ∃ responses srv, serve_all reqs srv0 = Some (responses, srv)
                             ∧ length responses = length reqs ∧ server_ok srv).
  { induction Hreqs as [|req reqs Hreq _ IH]; intros srv0 Hok; simpl.
    - by exists [], srv0.
    - destruct (serve_ok req srv0 Hreq Hok) as (r & srv1 & -> & Hok1). simpl.
      destruct (IH srv1 Hok1) as (rs & srv & -> & Hlen & Hok'). simpl.
      exists (r :: rs), srv. split_and!; [done | simpl; lia | done]. }
  destruct (Hgen _ server_ok_empty) as (responses & srv & Hrun & Hlen & Hok).
  exists responses, srv. split; [done|]. split; [done|].
  intros id session Hs. destruct Hok as (Hlive & _ & _ & Hinv).
  destruct (Hlive id session Hs) as [state Hstate].
  exists state. split; [done|]. by destruct (Hinv _ _ Hstate).
Qed.

Lemma requests_are_always_answered_witness :
  ∃ responses srv,
    serve_all [GetRoot; GetNew 7 8 (λ _, 0%nat); GetHit "game-7"; GetStand "game-7";
               GetHit "game-8"; GetStand "game"] (mkServer ∅ ∅ 0)
    = Some (responses, srv)
    ∧ length responses = 6%nat.
Proof.
  destruct (requests_are_always_answered
              [GetRoot; GetNew 7 8 (λ _, 0%nat); GetHit "game-7"; GetStand "game-7";
               GetHit "game-8"; GetStand "game"])
    as (responses & srv & Hrun & Hlen & _).
  { repeat constructor. simpl. lia. }
  exists responses, srv. split; [exact Hrun | exact Hlen].
Defined.

Lemma newHandler_after_create unixNano now rnd srv gameID session srv' :
  createGame unixNano now rnd srv = Some (gameID, session, srv') →
  newHandler unixNano now rnd srv
  = Some (SeeOther ("/game/" +:+ gameID +:+ "/hit"), srv').
Proof.
  intros Hcreate. unfold newHandler. rewrite Hcreate. simpl.
  unfold createGame in Hcreate.
  destruct (initialState rnd) as [initial|]; [simpl in Hcreate|done].
  injection Hcreate as <- <- <-.
  unfold submit, gameLoop_step. simpl.
  rewrite lookup_insert_eq. simpl.
  by rewrite insert_insert_eq.
Qed.

(** X14.  A new game followed by the hit the client is redirected to: when
    the clock reading is not negative, [newHandler] redirects to
    ["/game/<id>/hit"], and [hitHandler] for that identifier renders a
    running game with two cards in the player's hand, one in the dealer's
    and 49 in the deck, unless the two cards are a blackjack, which sets
    [Stand]; the hand is never bust. *)
Theorem new_game_then_hit (unixNano now : Z) (rnd : nat → nat) (srv : Server) :
  0 ≤ unixNano → (∀ n, (rnd n ≤ n)%nat) → server_ok srv →
  ∃ srv1 state srv2,
    newHandler unixNano now rnd srv
    = Some (SeeOther ("/game/" +:+ Sprintf_game unixNano +:+ "/hit"), srv1)
    ∧ hitHandler (Sprintf_game unixNano) srv1
      = Some (Page state (Sprintf_game unixNano), srv2)
    ∧ length (PlayerHand state) = 2%nat
    ∧ length (DealerHand state) = 1%nat
    ∧ length (Deck state) = 49%nat
    ∧ Bust state = false
    ∧ isBlackjack (PlayerHand state) = Some (Stand state).
Proof.
  intros Hnano Hrnd Hok.
  destruct (createGame_ok unixNano now rnd srv Hrnd Hok)
    as (initial & srv1 & Hcreate & Hinit & Hg & Ha & Hc & Hok1).
  rewrite (newHandler_after_create _ _ _ _ _ _ _ Hcreate).
  destruct (initialState_deal rnd Hrnd) as (c0 & c1 & deck & Hinit' & Hlen & Hperm).
  rewrite Hinit' in Hinit. injection Hinit as <-.
  destruct deck as [|c deck]; [done|].
  assert (Hv : Forall valid_card (c0 :: c1 :: c :: deck)).
  { rewrite Hperm. apply valid_new_deck. }
  apply Forall_cons in Hv as [Hv0 Hv]. apply Forall_cons in Hv as [_ Hv].
  apply Forall_cons in Hv as [Hvc _].
  pose proof (hit_second_card c0 c [c1] deck "" Hv0 Hvc) as Hhit. simpl in Hhit.
  set (state := mkGameState [c0; c] [c1] deck false _ _) in Hhit.
  exists srv1, state,
    (mkServer (games srv1) (<[chans srv := state]> (actors srv1)) (chans srv1)).
  split; [done|]. split.
  { unfold hitHandler, gameHandler, getSession.
    rewrite Sprintf_game_valid, bool_decide_eq_true_2 by done. simpl.
    rewrite Hg, lookup_insert_eq. unfold submit, gameLoop_step. simpl.
    rewrite Ha, lookup_insert_eq. simpl. rewrite Hhit. simpl. by rewrite Hg. }
  split_and!; [done | done | simpl in *; lia | done |].
  by apply isBlackjack_pair.
Qed.

Lemma new_game_then_hit_witness :
  ∃ srv1 state srv2,
    newHandler 7 8 (λ _, 0%nat) (mkServer ∅ ∅ 0)
    = Some (SeeOther ("/game/" +:+ Sprintf_game 7 +:+ "/hit"), srv1)
    ∧ hitHandler (Sprintf_game 7) srv1 = Some (Page state (Sprintf_game 7), srv2)
    ∧ length (PlayerHand state) = 2%nat.
Proof.
  destruct (new_game_then_hit 7 8 (λ _, 0%nat) (mkServer ∅ ∅ 0))
    as (srv1 & state & srv2 & Hnew & Hhit & Hlen & _);
    [lia | lia | apply server_ok_empty |].
  exists srv1, state, srv2. split; [exact Hnew|]. split; [exact Hhit | exact Hlen].
Defined.

(** X15.  Two games created on the same clock reading get the same
    identifier, and the second takes the entry of the first: the registry
    holds the second session under that identifier, no identifier leads to
    the channel of the first session any more, though its actor is still
    there, and every other identifier is registered as before. *)
Theorem same_clock_reading_overwrites
    (unixNano now1 now2 : Z) (rnd1 rnd2 : nat → nat) (srv : Server) :
  (∀ n, (rnd1 n ≤ n)%nat) → (∀ n, (rnd2 n ≤ n)%nat) → server_ok srv →
  ∃ gameID session1 srv1 session2 srv2,
    createGame unixNano now1 rnd1 srv = Some (gameID, session1, srv1)
    ∧ createGame unixNano now2 rnd2 srv1 = Some (gameID, session2, srv2)
    ∧ getSession srv2 gameID = Some session2
    ∧ (∀ id session, getSession srv2 id = Some session →
         commands session ≠ commands session1)
    ∧ is_Some (actors srv2 !! commands session1)
    ∧ ∀ id, id ≠ gameID → getSession srv2 id = getSession srv id.
Proof.
  intros Hrnd1 Hrnd2 Hok.
  destruct (createGame_ok unixNano now1 rnd1 srv Hrnd1 Hok)
    as (i1 & srv1 & Hc1 & _ & Hg1 & Ha1 & Hn1 & Hok1).
  destruct (createGame_ok unixNano now2 rnd2 srv1 Hrnd2 Hok1)
    as (i2 & srv2 & Hc2 & _ & Hg2 & Ha2 & Hn2 & Hok2).
  eexists _, _, _, _, _. split; [exact Hc1|]. split; [exact Hc2|].
  unfold getSession. rewrite Hg2, Hg1, Ha2, Ha1, Hn1. simpl. split_and!.
  - by rewrite lookup_insert_eq.
  - intros id session Hs.
    apply lookup_insert_Some in Hs as [[_ <-]|[Hne Hs]]; [simpl; lia|].
    rewrite lookup_insert_ne in Hs by done.
    destruct Hok as (Hlive & _ & Hfresh & _).
    apply Hlive, Hfresh in Hs. lia.
  - rewrite lookup_insert_ne by lia. rewrite lookup_insert_eq. by eexists.
  - intros id Hne. by rewrite !lookup_insert_ne.
Qed.

Lemma same_clock_reading_overwrites_witness :
  ∃ gameID session1 srv1 session2 srv2,
    createGame 7 8 (λ _, 0%nat) (mkServer ∅ ∅ 0) = Some (gameID, session1, srv1)
    ∧ createGame 7 9 (λ n, n) srv1 = Some (gameID, session2, srv2)
    ∧ getSession srv2 gameID = Some session2.
Proof.
  destruct (same_clock_reading_overwrites 7 8 9 (λ _, 0%nat) (λ n, n) (mkServer ∅ ∅ 0))
    as (gameID & s1 & srv1 & s2 & srv2 & H1 & H2 & Hg & _);
    [lia | lia | apply server_ok_empty |].
  exists gameID, s1, srv1, s2, srv2. split; [exact H1|]. split; [exact H2 | exact Hg].
Defined.

Lemma gameHandler_inv gameID action srv r srv' :
  gameHandler gameID action srv = Some (r, srv') →
  (r = Error "Invalid game ID" 400 ∧ srv' = srv
   ∧ gameIDRe_MatchString gameID = false)
  ∨ (r = SeeOther "/" ∧ srv' = srv
     ∧ gameIDRe_MatchString gameID = true ∧ getSession srv gameID = None)
  ∨ (gameIDRe_MatchString gameID = true
     ∧ ∃ session state state',
         getSession srv gameID = Some session
         ∧ actors srv !! commands session = Some state
         ∧ transition action state = Some state'
         ∧ r = Page state' gameID
         ∧ srv' = mkServer (games srv) (<[commands session := state']> (actors srv))
                    (chans srv)).
Proof.
  unfold gameHandler.
  destruct (gameIDRe_MatchString gameID); simpl; [|intros [= <- <-]; by left].
  destruct (getSession srv gameID) as [session|] eqn:Hs;
    [|intros [= <- <-]; right; by left].
  unfold submit, gameLoop_step.
  destruct (actors srv !! commands session) as [state|] eqn:Ha; simpl; [|done].
  destruct (transition action state) as [state'|] eqn:Htr; simpl; [|done].
  intros [= <- <-]. right. right. split; [done|].
  exists session, state, state'. by split_and!.
Qed.

Lemma gameHandler_found gameID action srv session state state' :
  gameIDRe_MatchString gameID = true →
  getSession srv gameID = Some session →
  actors srv !! commands session = Some state →
  transition action state = Some state' →
  gameHandler gameID action srv
  = Some (Page state' gameID,
          mkServer (games srv) (<[commands session := state']> (actors srv))
            (chans srv)).
Proof.
  intros Hid Hs Ha Htr. unfold gameHandler, submit, gameLoop_step.
  rewrite Hid, Hs. simpl. rewrite Ha. simpl. by rewrite Htr.
Qed.

(** X16.  Sessions do not interfere: two requests for different identifiers
    can be served in either order, with the same two responses and the same
    process afterwards. *)
Theorem requests_for_different_games_commute
    (id1 id2 action1 action2 : string) (srv srv1 srv12 : Server) (r1 r2 : Response) :
  server_ok srv → id1 ≠ id2 →
  gameHandler id1 action1 srv = Some (r1, srv1) →
  gameHandler id2 action2 srv1 = Some (r2, srv12) →
  ∃ srv2,
    gameHandler id2 action2 srv = Some (r2, srv2)
    ∧ gameHandler id1 action1 srv2 = Some (r1, srv12).
Proof.
  intros (_ & Hdist & _) Hne H1 H2.
  destruct (gameHandler_inv _ _ _ _ _ H1)
    as [(-> & -> & Hid1)|[(-> & -> & Hid1 & Hs1)|(Hid1 & s1 & st1 & st1' & Hs1 & Ha1 & Ht1 & -> & ->)]].
  - exists srv12. split; [done|]. unfold gameHandler. by rewrite Hid1.
  - exists srv12. split; [done|]. unfold gameHandler, getSession in *.
    by rewrite Hid1, (gameHandler_games _ _ _ _ _ H2), Hs1.
  - destruct (gameHandler_inv _ _ _ _ _ H2)
      as [(-> & -> & Hid2)|[(-> & -> & Hid2 & Hs2)|(Hid2 & s2 & st2 & st2' & Hs2 & Ha2 & Ht2 & -> & ->)]].
    + exists srv. split; [unfold gameHandler; by rewrite Hid2|].
      by eapply gameHandler_found.
    + exists srv. split; [|by eapply gameHandler_found].
      unfold gameHandler, getSession in *. simpl in Hs2. by rewrite Hid2, Hs2.
    + unfold getSession in *. simpl in *.
      assert (commands s1 ≠ commands s2) as Hch.
      { intros Heq. by apply Hne, (Hdist _ _ _ _ Hs1 Hs2). }
      rewrite lookup_insert_ne in Ha2 by done.
      eexists. split; [by eapply gameHandler_found|].
      rewrite (gameHandler_found id1 action1 _ s1 st1 st1'); try done.
      * simpl. by rewrite insert_insert_ne.
      * simpl. by rewrite lookup_insert_ne.
Qed.

(** X17.  An eviction pass that finds no session older than thirty minutes
    changes nothing: no channel is closed and no entry deleted.  A session
    that is exactly thirty minutes old is not old enough. *)
Theorem eviction_pass_without_old_sessions (now : Z) (srv : Server) :
  (∀ id session, getSession srv id = Some session →
     Since now (created session) ≤ 30 * Minute) →
  cleanupOldGames now srv = Some srv.
Proof. intros Hall. by apply cleanupOldGames_young. Qed.

Lemma eviction_pass_without_old_sessions_witness :
  let srv := mkServer {["game-1" := mkGameSession 0 0]}
               {[0%nat := mkGameState [8] [12] [4; 5] false false ""]} 1 in
  cleanupOldGames (30 * Minute) srv = Some srv.
Proof.
  intros srv. apply (eviction_pass_without_old_sessions (30 * Minute) srv).
  intros id session Hs. unfold getSession, srv in Hs. simpl in Hs.
  apply lookup_singleton_Some in Hs as [_ <-]. by vm_compute.
Defined.

(** X27.  An eviction pass that finds a session older than thirty minutes
    ends the process.  The pass closes the channel of the session; the
    actor of the session leaves its loop over the channel, and the [close]
    it deferred closes the closed channel, which panics. *)
Theorem eviction_of_old_session_panics
    (now : Z) (srv : Server) (gameID : string) (session : GameSession) :
  getSession srv gameID = Some session →
  Since now (created session) > 30 * Minute →
  cleanupOldGames now srv = None.
Proof. intros Hs Hold. by apply (cleanupOldGames_old now srv gameID session). Qed.

Lemma eviction_of_old_session_panics_witness :
  let srv := mkServer {["game-1" := mkGameSession 0 0]}
               {[0%nat := mkGameState [8] [12] [4; 5] false false ""]} 1 in
  cleanupOldGames (31 * Minute) srv = None.
Proof.
  intros srv.
  apply (eviction_of_old_session_panics (31 * Minute) srv "game-1" (mkGameSession 0 0));
    by vm_compute.
Defined.

Lemma requests_for_different_games_commute_witness :
  ∃ srv r1 srv1 r2 srv12 srv2,
    gameHandler (Sprintf_game 7) "hit" srv = Some (r1, srv1)
    ∧ gameHandler (Sprintf_game 8) "stand" srv1 = Some (r2, srv12)
    ∧ gameHandler (Sprintf_game 8) "stand" srv = Some (r2, srv2)
    ∧ gameHandler (Sprintf_game 7) "hit" srv2 = Some (r1, srv12).
Proof.
  destruct (createGame_ok 7 0 (λ _, 0%nat) (mkServer ∅ ∅ 0))
    as (i1 & srvA & _ & _ & _ & _ & _ & HokA); [lia | apply server_ok_empty |].
  destruct (createGame_ok 8 0 (λ _, 0%nat) srvA)
    as (i2 & srv & _ & _ & _ & _ & _ & Hok); [lia | exact HokA |].
  destruct (gameHandler_ok (Sprintf_game 7) "hit" srv Hok) as (r1 & srv1 & H1 & Hok1).
  destruct (gameHandler_ok (Sprintf_game 8) "stand" srv1 Hok1) as (r2 & srv12 & H2 & _).
  destruct (requests_for_different_games_commute
              (Sprintf_game 7) (Sprintf_game 8) "hit" "stand"
              srv srv1 srv12 r1 r2 Hok)
    as (srv2 & H3 & H4); [|exact H1 | exact H2 |].
  { intros Heq%Sprintf_game_inj. lia. }
  exists srv, r1, srv1, r2, srv12, srv2.
  split; [exact H1|]. split; [exact H2|]. split; [exact H3 | exact H4].
Defined.

(** * The variant with a mutex per game *)

(** X18.  [determineOutcome] against the switch of the actor: for a player
    above 21 it says "You bust!"; for a player within 21 the two give the
    same message, except that a player on 21 who beats a dealer within 21 is
    told "Blackjack! You win!" here and "You win!" by the actor.  Both give
    the outcome of the rule. *)
Theorem determineOutcome_and_outcome (player dealer : Z) :
  (player > 21 → Locked.determineOutcome player dealer = "You bust!")
  ∧ (player ≤ 21 →
       outcome_of_message (Locked.determineOutcome player dealer)
       = Some (spec_outcome player dealer)
       ∧ (Locked.determineOutcome player dealer = outcome player dealer
          ∨ player = 21 ∧ dealer < 21
            ∧ Locked.determineOutcome player dealer = "Blackjack! You win!"
            ∧ outcome player dealer = "You win!")).
Proof.
  unfold Locked.determineOutcome, outcome, spec_outcome.
  split; intros Hp.
  - by rewrite bool_decide_eq_true_2.
  - rewrite (bool_decide_eq_false_2 (player > 21)) by lia.
    repeat case_bool_decide; try lia; (split; [by vm_compute|]);
      first [by left | right; split_and!; done || lia].
Qed.

Lemma determineOutcome_and_outcome_witness :
  Locked.determineOutcome 21 19 = "Blackjack! You win!"
  ∧ outcome 21 19 = "You win!".
Proof.
  destruct (determineOutcome_and_outcome 21 19) as [_ Hle].
  destruct Hle as [_ [Heq|(_ & _ & Hl & Ha)]]; [lia | | by split].
  split; by vm_compute.
Defined.

Lemma dealer_loop_stop deck hand ds :
  dealer_draws ds hand = Some false →
  dealer_loop deck hand ds = Some (hand, deck, ds).
Proof. intros Hd. destruct deck; simpl; by rewrite Hd. Qed.

(** X19.  The two dealers draw alike.  From a hand on which the rule of the
    actor says draw, whenever the loop of the actor ends (the deck did not
    run out), the loop of [standHandler] run over the same cards ends with
    the same hand and the same score. *)
Theorem dealer_play_agrees_with_actor
    (rest hand hand' rest' : list card) (ds d ds0 : Z) :
  score hand = Some ds →
  dealer_draws ds hand = Some true →
  dealer_loop rest hand ds = Some (hand', rest', d) →
  Locked.dealer_play rest hand ds0 = Some (hand', d).
Proof.
  revert hand ds ds0. induction rest as [|c rest IH]; intros hand ds ds0 Hs Hd; simpl.
  - by rewrite Hd.
  - rewrite Hd. simpl.
    destruct (score (hand ++ [c])) as [s|] eqn:Hs'; simpl; [|done].
    intros Hloop.
    destruct (dealer_draws s (hand ++ [c])) as [[]|] eqn:Hd'.
    + rewrite (IH _ _ s Hs' Hd' Hloop).
      apply dealer_draws_true in Hd' as [Hlt|[-> Hace]].
      * rewrite !bool_decide_eq_false_2 by lia. done.
      * rewrite bool_decide_eq_true_2 by done. by rewrite Hace.
    + rewrite (dealer_loop_stop _ _ _ Hd') in Hloop. injection Hloop as <- <- <-.
      apply dealer_draws_false in Hd' as [Hge Hace].
      destruct (decide (s = 17)) as [H17|H17].
      * rewrite (bool_decide_eq_true_2 (s = 17)), (Hace H17) by done. simpl.
        by rewrite bool_decide_eq_true_2 by lia.
      * rewrite (bool_decide_eq_false_2 (s = 17)) by done. simpl.
        by rewrite bool_decide_eq_true_2 by lia.
    + destruct rest; simpl in Hloop; by rewrite Hd' in Hloop.
Qed.

Lemma dealer_play_agrees_with_actor_witness :
  Locked.dealer_play [4; 3; 5; 0; 1] [12] 0 = Some ([12; 4; 3; 5], 19).
Proof.
  apply (dealer_play_agrees_with_actor [4; 3; 5; 0; 1] [12] [12; 4; 3; 5] [0; 1] 11 19 0);
    by vm_compute.
Defined.

Lemma dealer_play_prefix (rest hand : list card) (ds0 : Z) :
  Forall valid_card (hand ++ rest) →
  ∃ drawn d,
    Locked.dealer_play rest hand ds0 = Some (hand ++ drawn, d)
    ∧ drawn `prefix_of` rest
    ∧ (drawn = [] → d = ds0)
    ∧ (drawn ≠ [] → score (hand ++ drawn) = Some d)
    ∧ (17 ≤ d ∨ drawn = rest).
Proof.
  revert hand ds0. induction rest as [|c rest IH]; intros hand ds0 Hv; simpl.
  - exists [], ds0. rewrite app_nil_r. split_and!; [done | done | done | done | by right].
  - rewrite cons_middle, app_assoc in Hv.
    apply Forall_app in Hv as Hv'. destruct Hv' as [Hvh _].
    destruct (score_is_Some _ Hvh) as [s Hs]. rewrite Hs. simpl.
    destruct (hasAce_valid _ Hvh) as [ace Hace].
    destruct (IH (hand ++ [c]) s Hv) as (drawn & d & Hplay & Hpre & Hnil & Hsc & Hend).
    assert (Hmore : ∃ drawn' d',
              Locked.dealer_play rest (hand ++ [c]) s = Some (hand ++ drawn', d')
              ∧ drawn' `prefix_of` c :: rest
              ∧ (drawn' = [] → d' = ds0)
              ∧ (drawn' ≠ [] → score (hand ++ drawn') = Some d')
              ∧ (17 ≤ d' ∨ drawn' = c :: rest)).
    { exists (c :: drawn), d. rewrite Hplay, <- app_assoc. simpl.
      split_and!; [done | by apply prefix_cons | done | |].
      - intros _. destruct drawn as [|c' drawn].
        + by rewrite Hnil.
        + rewrite cons_middle, app_assoc. by apply Hsc.
      - destruct Hend as [?| ->]; [by left | by right]. }
    assert (Hstop : 17 ≤ s →
              ∃ drawn' d',
                Some (hand ++ [c], s) = Some (hand ++ drawn', d')
                ∧ drawn' `prefix_of` c :: rest
                ∧ (drawn' = [] → d' = ds0)
                ∧ (drawn' ≠ [] → score (hand ++ drawn') = Some d')
                ∧ (17 ≤ d' ∨ drawn' = c :: rest)).
    { intros Hge. exists [c], s.
      split_and!; [done | | done | done | by left].
      apply prefix_cons, prefix_nil. }
    destruct (decide (s = 17)) as [H17|H17].
    + rewrite (bool_decide_eq_true_2 (s = 17)), Hace by done.
      destruct ace; simpl; [done|].
      rewrite bool_decide_eq_true_2 by lia. apply Hstop. lia.
    + rewrite (bool_decide_eq_false_2 (s = 17)) by done. simpl.
      case_bool_decide; [apply Hstop; lia | done].
Qed.

(** X20.  The dealer of [standHandler] cannot run off the deck: on cards
    0..51 its loop always ends, having drawn a prefix of the cards that were
    left, and with 17 or more unless it drew them all. *)
Theorem dealer_play_stays_in_deck (rest hand : list card) (ds0 : Z) :
  Forall valid_card (hand ++ rest) →
  ∃ drawn d,
    Locked.dealer_play rest hand ds0 = Some (hand ++ drawn, d)
    ∧ drawn `prefix_of` rest
    ∧ (drawn = [] → d = ds0)
    ∧ (drawn ≠ [] → score (hand ++ drawn) = Some d)
    ∧ (17 ≤ d ∨ drawn = rest).
Proof. intros Hv. by apply dealer_play_prefix. Qed.

Lemma dealer_play_stays_in_deck_witness :
  ∃ drawn d,
    Locked.dealer_play [0; 1] [2] 0 = Some ([2] ++ drawn, d)
    ∧ (17 ≤ d ∨ drawn = [0; 1]).
Proof.
  destruct (dealer_play_stays_in_deck [0; 1] [2] 0)
    as (drawn & d & Hplay & _ & _ & _ & Hend).
  { repeat constructor; unfold valid_card; lia. }
  exists drawn, d. split; [exact Hplay | exact Hend].
Defined.

Lemma slice_player_hand (deck : list card) (k : Z) :
  0 ≤ k → 1 + k ≤ len deck →
  slice deck 1 (1 + k) = Some (take (Z.to_nat k) (drop 1 deck)).
Proof.
  intros Hk Hlen. unfold slice. rewrite bool_decide_eq_true_2 by lia.
  do 3 f_equal. lia.
Qed.

Lemma locked_deck_valid g : locked_game_ok g → Forall valid_card (Locked.deck g).
Proof. intros [-> _]. apply valid_new_deck. Qed.

Lemma locked_deck_len g : locked_game_ok g → len (Locked.deck g) = 52.
Proof. intros [Hp _]. unfold len. by rewrite (Permutation_length Hp). Qed.

Lemma locked_hit_ok key games :
  (∀ k g, games !! k = Some g → locked_game_ok g) →
  ∃ r games',
    Locked.hitHandler key games = Some (r, games')
    ∧ ∀ k g, games' !! k = Some g → locked_game_ok g.
Proof.
  intros Hok. unfold Locked.hitHandler.
  destruct (Locked.validateGameID key); simpl; [|by eexists _, _].
  destruct (games !! key) as [g|] eqn:Hg; [|by eexists _, _].
  destruct (Locked.mu g); [by eexists _, _|].
  pose proof (Hok _ _ Hg) as Hgok.
  pose proof (locked_deck_len g Hgok) as Hlen.
  pose proof (locked_deck_valid g Hgok) as Hv.
  destruct Hgok as [Hperm Hcount].
  destruct (Locked.playerBust g); simpl; [by eexists _, _|].
  case_bool_decide as Hguard; [by eexists _, _|].
  rewrite slice_player_hand by lia. simpl.
  assert (Hvh : Forall valid_card
                  (take (Z.to_nat (Locked.count g + 1)) (drop 1 (Locked.deck g))))
    by (by apply Forall_take, Forall_drop).
  destruct (score_is_Some _ Hvh) as [sc ->]. simpl.
  destruct (isBlackjack_is_Some _ Hvh) as [bj ->]. simpl.
  assert (Hins : ∀ m b, ∀ k g',
            <[key := Locked.mkGame m (Locked.count g + 1) (Locked.deck g) b]> games !! k
            = Some g' → locked_game_ok g').
  { intros m b k g' Hk.
    apply lookup_insert_Some in Hk as [[_ <-]|[_ Hk]]; [|by apply (Hok k)].
    split; simpl; [done | lia]. }
  destruct bj; [eexists _, _; split; [done | apply Hins]|].
  destruct (Locked.deck g) as [|d0 deck] eqn:Hdeck; [by unfold len in Hlen|].
  unfold index. simpl. eexists _, _. split; [done | apply Hins].
Qed.

Lemma locked_stand_ok key games :
  (∀ k g, games !! k = Some g → locked_game_ok g) →
  ∃ r games',
    Locked.standHandler key games = Some (r, games')
    ∧ ∀ k g, games' !! k = Some g → locked_game_ok g.
Proof.
  intros Hok. unfold Locked.standHandler.
  destruct (Locked.validateGameID key); simpl; [|by eexists _, _].
  destruct (games !! key) as [g|] eqn:Hg; [|by eexists _, _].
  destruct (Locked.mu g); [by eexists _, _|].
  assert (Hdel : ∀ k g', delete key games !! k = Some g' → locked_game_ok g').
  { intros k g' Hk. apply lookup_delete_Some in Hk as [_ Hk]. by apply (Hok k). }
  pose proof (Hok _ _ Hg) as Hgok.
  pose proof (locked_deck_len g Hgok) as Hlen.
  pose proof (locked_deck_valid g Hgok) as Hv.
  destruct Hgok as [Hperm Hcount].
  case_bool_decide as Hfew; [by eexists _, _|].
  rewrite slice_player_hand by lia. simpl.
  assert (Hvh : Forall valid_card
                  (take (Z.to_nat (Locked.count g)) (drop 1 (Locked.deck g))))
    by (by apply Forall_take, Forall_drop).
  destruct (score_is_Some _ Hvh) as [sc ->]. simpl.
  destruct (Locked.deck g) as [|d0 deck] eqn:Hdeck; [by unfold len in Hlen|].
  unfold index. simpl.
  destruct (dealer_play_prefix
              (drop (Z.to_nat (1 + Locked.count g)) (d0 :: deck)) [d0] 0)
    as (drawn & d & -> & _).
  { apply Forall_app. split; [|by apply Forall_drop].
    apply Forall_singleton. by apply Forall_inv in Hv. }
  simpl. by eexists _, _.
Qed.

Lemma locked_new_ok unixNano rnd games :
  (∀ n, (rnd n ≤ n)%nat) →
  (∀ k g, games !! k = Some g → locked_game_ok g) →
  ∃ games',
    Locked.newGameHandler unixNano rnd games
    = Some (Locked.Found ("/" +:+ Sprintf_game unixNano +:+ "/hit"), games')
    ∧ ∀ k g, games' !! k = Some g → locked_game_ok g.
Proof.
  intros Hrnd Hok. unfold Locked.newGameHandler, Locked.newGame, Locked.generateGameID.
  destruct (Shuffle_from_Permutation rnd Hrnd (length new_deck - 1) new_deck)
    as (deck & Hsh & Hperm); [simpl; lia|].
  unfold Shuffle. rewrite Hsh. simpl. eexists. split; [done|].
  intros k g Hk. apply lookup_insert_Some in Hk as [[_ <-]|[_ Hk]]; [|by apply (Hok k)].
  split; simpl; [done | lia].
Qed.

(** X21.  In the variant with a mutex, starting from well-formed games, no
    handler panics: [hitHandler] refuses a hit ("Invalid action") once the
    player holds all the cards behind the dealer's, so [deck[1 : 1+count]]
    stays inside the deck, and [standHandler] draws for the dealer only
    while cards are left.  The games stay well formed. *)
Theorem locked_handlers_never_panic (key : string) (games : gmap string Locked.game) :
  (∀ k g, games !! k = Some g → locked_game_ok g) →
  (∃ r games',
     Locked.hitHandler key games = Some (r, games')
     ∧ ∀ k g, games' !! k = Some g → locked_game_ok g)
  ∧ (∃ r games',
       Locked.standHandler key games = Some (r, games')
       ∧ ∀ k g, games' !! k = Some g → locked_game_ok g)
  ∧ ∀ unixNano rnd, (∀ n, (rnd n ≤ n)%nat) →
      ∃ games',
        Locked.newGameHandler unixNano rnd games
        = Some (Locked.Found ("/" +:+ Sprintf_game unixNano +:+ "/hit"), games')
        ∧ ∀ k g, games' !! k = Some g → locked_game_ok g.
Proof.
  intros Hok. split; [by apply locked_hit_ok|]. split; [by apply locked_stand_ok|].
  intros unixNano rnd Hrnd. by apply locked_new_ok.
Qed.

Lemma locked_handlers_never_panic_witness :
  ∃ games', Locked.newGameHandler 7 (λ _, 0%nat) ∅
            = Some (Locked.Found ("/" +:+ Sprintf_game 7 +:+ "/hit"), games').
Proof.
  destruct (locked_handlers_never_panic "game-7" ∅) as (_ & _ & Hnew).
  { intros k g. by rewrite lookup_empty. }
  destruct (Hnew 7 (λ _, 0%nat)) as (games' & Hn & _); [lia|].
  exists games'. exact Hn.
Defined.

(** X22.  A stand that is refused still ends the game.  [standHandler]
    defers the deletion before it checks the cards, so with fewer than two
    cards in the player's hand it answers "Not enough cards to stand" and
    the game is gone: the next hit or stand for it finds no game. *)
Theorem refused_stand_deletes_game
    (key : string) (games : gmap string Locked.game) (g : Locked.game) :
  Locked.validateGameID key = true →
  games !! key = Some g → Locked.mu g = false → Locked.count g < 2 →
  Locked.standHandler key games
  = Some (Locked.HttpError "Not enough cards to stand" 400, delete key games)
  ∧ Locked.hitHandler key (delete key games)
    = Some (Locked.HttpError "Game not found" 404, delete key games)
  ∧ Locked.standHandler key (delete key games)
    = Some (Locked.HttpError "Game not found" 404, delete key games).
Proof.
  intros Hid Hg Hmu Hfew. unfold Locked.standHandler, Locked.hitHandler.
  rewrite Hid, Hg, Hmu, lookup_delete_eq. simpl.
  by rewrite bool_decide_eq_true_2.
Qed.

Lemma refused_stand_deletes_game_witness :
  Locked.standHandler "game-1"
    {["game-1" := Locked.mkGame false 1 new_deck false]}
  = Some (Locked.HttpError "Not enough cards to stand" 400,
          delete "game-1" {["game-1" := Locked.mkGame false 1 new_deck false]}).
Proof.
  destruct (refused_stand_deletes_game "game-1"
              {["game-1" := Locked.mkGame false 1 new_deck false]}
              (Locked.mkGame false 1 new_deck false)) as [Hst _];
    [by vm_compute | by rewrite lookup_singleton_eq | done | simpl; lia |].
  exact Hst.
Defined.

(** X23.  A blackjack blocks the game.  When the second card gives the
    player a two-card 21, [hitHandler] calls [standHandler] with the mutex
    of the game held; [standHandler] waits for that mutex, so the request
    gets no response, and every later hit or stand for the game waits as
    well. *)
Theorem blackjack_hit_blocks
    (key : string) (games : gmap string Locked.game) (g : Locked.game)
    (d0 c1 c2 : card) (rest : list card) :
  Locked.validateGameID key = true →
  games !! key = Some g →
  Locked.mu g = false → Locked.playerBust g = false → Locked.count g = 1 →
  Locked.deck g = d0 :: c1 :: c2 :: rest →
  isBlackjack [c1; c2] = Some true →
  ∃ games',
    Locked.hitHandler key games = Some (Locked.Blocked, games')
    ∧ games' = <[key := Locked.mkGame true 2 (Locked.deck g) false]> games
    ∧ Locked.hitHandler key games' = Some (Locked.Blocked, games')
    ∧ Locked.standHandler key games' = Some (Locked.Blocked, games').
Proof.
  intros Hid Hg Hmu Hbust Hcount Hdeck Hbj.
  eexists. split; [|split; [done|]].
  - unfold Locked.hitHandler. rewrite Hid, Hg, Hmu, Hbust, Hcount, Hdeck. simpl.
    rewrite bool_decide_eq_false_2 by (unfold len; simpl; lia).
    rewrite slice_player_hand by (unfold len; simpl; lia).
    change (take (Z.to_nat (1 + 1)) (drop 1 (d0 :: c1 :: c2 :: rest)))
      with [c1; c2].
    simpl. rewrite (isBlackjack_true _ Hbj). simpl. by rewrite Hbj.
  - unfold Locked.hitHandler, Locked.standHandler.
    by rewrite Hid, lookup_insert_eq.
Qed.

Lemma blackjack_hit_blocks_witness :
  ∃ games',
    Locked.hitHandler "game-1"
      {["game-1" := Locked.mkGame false 1 [0; 12; 24; 1; 2; 3] false]}
    = Some (Locked.Blocked, games').
Proof.
  destruct (blackjack_hit_blocks "game-1"
              {["game-1" := Locked.mkGame false 1 [0; 12; 24; 1; 2; 3] false]}
              (Locked.mkGame false 1 [0; 12; 24; 1; 2; 3] false) 0 12 24 [1; 2; 3])
    as (games' & Hhit & _);
    [by vm_compute | by rewrite lookup_singleton_eq | done | done | done | done
     | by vm_compute |].
  exists games'. exact Hhit.
Defined.

(** * The variant with a counter for identifiers *)

(** X24.  Identifiers from the counter are fresh: a new game never takes
    the entry of a registered game, and every registered game stays
    registered. *)
Theorem counter_identifiers_are_fresh (rnd : nat → nat) (reg : Counted.Registry) :
  (∀ n, (rnd n ≤ n)%nat) → counted_ids_ok reg →
  ∃ reg',
    Counted.newGameHandler rnd reg
    = Some (Counted.Found
              ("/" +:+ Sprintf_game (Counted.gameCounter reg + 1) +:+ "/hit"), reg')
    ∧ Counted.games reg !! Sprintf_game (Counted.gameCounter reg + 1) = None
    ∧ is_Some (Counted.games reg' !! Sprintf_game (Counted.gameCounter reg + 1))
    ∧ (∀ id g, Counted.games reg !! id = Some g → Counted.games reg' !! id = Some g)
    ∧ counted_ids_ok reg'.
Proof.
  intros Hrnd Hok.
  unfold Counted.newGameHandler, Counted.newGame, Counted.generateGameID.
  destruct (Shuffle_from_Permutation rnd Hrnd (length new_deck - 1) new_deck)
    as (deck & Hsh & Hperm); [simpl; lia|].
  unfold Shuffle. rewrite Hsh. simpl. eexists. split; [done|]. simpl.
  assert (Hfresh : Counted.games reg !! Sprintf_game (Counted.gameCounter reg + 1) = None).
  { destruct (Counted.games reg !! _) as [g|] eqn:Hg; [|done].
    destruct (Hok _ _ Hg) as (k & Hk%Sprintf_game_inj & Hle). lia. }
  split_and!; [done | by rewrite lookup_insert_eq | |].
  - intros id g Hg. rewrite lookup_insert_ne; [done|]. intros <-. congruence.
  - intros id g Hg. simpl in Hg.
    apply lookup_insert_Some in Hg as [[<- _]|[_ Hg]]; simpl.
    + by eexists.
    + destruct (Hok _ _ Hg) as (k & -> & Hle). exists k. split; [done | lia].
Qed.

Lemma counter_identifiers_are_fresh_witness :
  ∃ reg',
    Counted.newGameHandler (λ _, 0%nat) (Counted.mkRegistry ∅ 0)
    = Some (Counted.Found ("/" +:+ Sprintf_game (0 + 1) +:+ "/hit"), reg').
Proof.
  destruct (counter_identifiers_are_fresh (λ _, 0%nat) (Counted.mkRegistry ∅ 0))
    as (reg' & Hnew & _); [lia | |].
  { intros id g. simpl. by rewrite lookup_empty. }
  exists reg'. exact Hnew.
Defined.

Lemma counted_hit_cases key reg g :
  Counted.games reg !! key = Some g → 0 ≤ Counted.count g →
  let reg' := Counted.mkRegistry
                (<[key := Counted.mkGame (Counted.count g + 1) (Counted.deck g)]>
                   (Counted.games reg))
                (Counted.gameCounter reg) in
  (len (Counted.deck g) ≤ Counted.count g + 1 →
     Counted.hitHandler key reg = Some (Counted.HttpError "Deck exhausted" 500, reg'))
  ∧ (Counted.count g + 1 < len (Counted.deck g) →
     ∃ dealer,
       Counted.deck g !! 0%nat = Some dealer
       ∧ Counted.hitHandler key reg
         = Some (Counted.GamePage dealer
                   (take (Z.to_nat (Counted.count g + 1)) (drop 1 (Counted.deck g))),
                 reg')).
Proof.
  intros Hg Hcount reg'. unfold Counted.hitHandler. rewrite Hg. split; intros Hlen.
  - by rewrite bool_decide_eq_true_2 by lia.
  - rewrite bool_decide_eq_false_2 by lia.
    destruct (Counted.deck g) as [|dealer deck] eqn:Hdeck;
      [unfold len in Hlen; simpl in Hlen; lia|].
    exists dealer. split; [done|]. unfold index. simpl.
    rewrite <- Hdeck, slice_player_hand by (rewrite ?Hdeck; lia).
    subst reg'. simpl. by rewrite Hdeck.
Qed.

(** X25.  In the variant with a counter a hit always gives the player one
    more card and answers with the dealer's card [deck[0]] and the hand
    [deck[1 : 1+count]], until the count reaches the length of the deck:
    from then on every hit is answered "Deck exhausted", and the count goes
    up all the same. *)
Theorem counted_hit (key : string) (reg : Counted.Registry) (g : Counted.game) :
  Counted.games reg !! key = Some g → 0 ≤ Counted.count g →
  ∃ r reg',
    Counted.hitHandler key reg = Some (r, reg')
    ∧ Counted.games reg' !! key
      = Some (Counted.mkGame (Counted.count g + 1) (Counted.deck g))
    ∧ (r = Counted.HttpError "Deck exhausted" 500
       ↔ len (Counted.deck g) ≤ Counted.count g + 1)
    ∧ (Counted.count g + 1 < len (Counted.deck g) →
       ∃ dealer, Counted.deck g !! 0%nat = Some dealer
                 ∧ r = Counted.GamePage dealer
                         (take (Z.to_nat (Counted.count g + 1))
                            (drop 1 (Counted.deck g)))).
Proof.
  intros Hg Hcount.
  destruct (counted_hit_cases key reg g Hg Hcount) as [Hfull Hmore].
  destruct (decide (Counted.count g + 1 < len (Counted.deck g))) as [Hlt|Hge].
  - destruct (Hmore Hlt) as (dealer & Hd & Hhit).
    eexists _, _. split; [exact Hhit|]. simpl. rewrite lookup_insert_eq.
    split_and!; [done | | ].
    + split; [done | lia].
    + intros _. by exists dealer.
  - eexists _, _. split; [apply Hfull; lia|]. simpl. rewrite lookup_insert_eq.
    split_and!; [done | | lia].
    split; [lia | done].
Qed.

Lemma counted_hit_witness :
  ∃ r reg',
    Counted.hitHandler "game-1"
      (Counted.mkRegistry {["game-1" := Counted.mkGame 2 [5; 6; 7]]} 1)
    = Some (r, reg')
    ∧ r = Counted.HttpError "Deck exhausted" 500.
Proof.
  destruct (counted_hit "game-1"
              (Counted.mkRegistry {["game-1" := Counted.mkGame 2 [5; 6; 7]]} 1)
              (Counted.mkGame 2 [5; 6; 7]))
    as (r & reg' & Hhit & _ & Hex & _);
    [by vm_compute | simpl; lia |].
  exists r, reg'. split; [exact Hhit|]. apply Hex. by vm_compute.
Defined.

(** X26.  In the variant with a counter, once a hit has been answered "Deck
    exhausted" the player's count is beyond the deck: a stand then slices
    [deck[1 : 1+count]] past the end of the deck and panics. *)
Theorem counted_stand_after_exhaustion_panics
    (key : string) (reg reg' : Counted.Registry) (g : Counted.game) :
  Counted.games reg !! key = Some g → 0 ≤ Counted.count g →
  Counted.hitHandler key reg = Some (Counted.HttpError "Deck exhausted" 500, reg') →
  Counted.standHandler key reg' = None.
Proof.
  intros Hg Hcount Hhit.
  destruct (counted_hit_cases key reg g Hg Hcount) as [Hfull Hmore].
  destruct (decide (Counted.count g + 1 < len (Counted.deck g))) as [Hlt|Hge].
  - destruct (Hmore Hlt) as (dealer & _ & Hhit'). congruence.
  - rewrite Hfull in Hhit by lia. injection Hhit as <-.
    unfold Counted.standHandler. simpl. rewrite lookup_insert_eq. simpl.
    unfold slice. by rewrite bool_decide_eq_false_2 by lia.
Qed.

Lemma counted_stand_after_exhaustion_panics_witness :
  ∃ reg',
    Counted.hitHandler "game-1"
      (Counted.mkRegistry {["game-1" := Counted.mkGame 2 [5; 6; 7]]} 1)
    = Some (Counted.HttpError "Deck exhausted" 500, reg')
    ∧ Counted.standHandler "game-1" reg' = None.
Proof.
  eexists. split; [by vm_compute|].
  eapply (counted_stand_after_exhaustion_panics "game-1"
            (Counted.mkRegistry {["game-1" := Counted.mkGame 2 [5; 6; 7]]} 1) _
            (Counted.mkGame 2 [5; 6; 7]));
    [by vm_compute | simpl; lia | by vm_compute].
Defined.

(** * The deck never runs out *)






